(** * RecordSetEventManager: the record list of a normalized collection

    A shallow embedding of
    [src/NormalizedCollection/libs/RecordSetEventManager.js]: the
    [RecordList] that merges the master list's ordering events with one
    value stream per child, and the [RecordSetEventManager] that starts
    and stops it.  State is threaded through a small state/output/error
    monad; what the code sends to its collaborators ([rec.watch],
    [rec.unwatch], [obs.handler(event)], [masterRef.on/off/once]) is
    collected in a trace. *)

From stdpp Require Import gmap strings list.
From Stdlib Require Import ZArith Ascii Lia.

Local Open Scope Z_scope.

(** ** JavaScript values used by the record list *)

(** A snapshot handed over by a value stream; the record list stores it
    and passes it on, it never looks inside. *)
Record Snapshot := mkSnap { skey : string; payload : Z }.

(** [this.obs.child(key)]: the record of one child. *)
Inductive RecHandle := Child (key : string).

(** What [this.snaps[key]] and [_dropRecord] may yield. *)
Inductive jsval :=
| JNull
| JUndefined
| JSnap (snap : Snapshot).

(** The functions handed to [rec.watch] and [rec.unwatch].  [util.bind]
    builds a new function object at every call, distinct from the method
    it wraps. *)
Inductive callback :=
| ValueUpdatedMethod
| BoundValueUpdated (key : string).

(** The five handlers of the observable, with the arguments [_notify] and
    [_notifyValue] apply them to. *)
Inductive event :=
| ChildAdded (key : string) (snap : jsval) (prev : option string)
| ChildMoved (key : string) (snap : jsval) (prev : option string)
| ChildChanged (key : string) (snap : jsval)
| ChildRemoved (key : string) (oldSnap : jsval)
| Value (snapshots : list Snapshot).

Inductive effect :=
| Watch (rec : RecHandle) (cb : callback)
| Unwatch (rec : RecHandle) (cb : callback)
| Emit (e : event)
| MasterOn (evt : string)
| MasterOff (evt : string)
| MasterOnce (evt : string).

Global Instance Snapshot_eq_dec : EqDecision Snapshot.
Proof. solve_decision. Defined.
Global Instance RecHandle_eq_dec : EqDecision RecHandle.
Proof. solve_decision. Defined.
Global Instance jsval_eq_dec : EqDecision jsval.
Proof. solve_decision. Defined.
Global Instance callback_eq_dec : EqDecision callback.
Proof. solve_decision. Defined.

(** ** Plain objects used as maps, in property order *)

Module JsObject.

(** Own properties in enumeration order: array-index keys ascending,
    then the other keys in the order they were created.  The name
    [__proto__] is not a property name of such an object (assigning to it
    sets the prototype and creates no property); [set] and [del] below
    describe the other names. *)
Abbreviation t V := (list (string * V)) (only parsing).

Definition digit_of (c : ascii) : option N :=
  let n := N_of_ascii c in
  if ((48 <=? n) && (n <=? 57))%N then Some (n - 48)%N else None.

Fixpoint digits_value (acc : N) (s : string) : option N :=
  match s with
  | EmptyString => Some acc
  | String c r =>
      match digit_of c with
      | Some d => digits_value (10 * acc + d)%N r
      | None => None
      end
  end.

(** A canonical numeric string below 2^32 - 1. *)
Definition array_index (k : string) : option N :=
  match k with
  | EmptyString => None
  | String "0"%char EmptyString => Some 0%N
  | String "0"%char _ => None
  | _ =>
      match digits_value 0 k with
      | Some n => if (n <? 4294967295)%N then Some n else None
      | None => None
      end
  end.

Definition comes_before (k k' : string) : bool :=
  match array_index k, array_index k' with
  | Some n, Some n' => (n <? n')%N
  | Some _, None => true
  | None, _ => false
  end.

Section Ops.
Context {V : Type}.

Fixpoint get (o : t V) (k : string) : option V :=
  match o with
  | [] => None
  | (k', v) :: r => if decide (k = k') then Some v else get r k
  end.

Definition has (o : t V) (k : string) : bool :=
  match get o k with Some _ => true | None => false end.

Fixpoint replace (k : string) (v : V) (o : t V) : t V :=
  match o with
  | [] => []
  | (k', v') :: r =>
      if decide (k = k') then (k, v) :: r else (k', v') :: replace k v r
  end.

Fixpoint create (k : string) (v : V) (o : t V) : t V :=
  match o with
  | [] => [(k, v)]
  | (k', v') :: r =>
      if comes_before k k' then (k, v) :: o else (k', v') :: create k v r
  end.

(** [o[k] = v] *)
Definition set (k : string) (v : V) (o : t V) : t V :=
  if has o k then replace k v o else create k v o.

(** [delete o[k]] *)
Definition del (k : string) (o : t V) : t V :=
  filter (fun p => k ≠ p.1) o.

Definition keys (o : t V) : list string := o.*1.
Definition values (o : t V) : list V := o.*2.
End Ops.

End JsObject.

(** ** Arrays *)

(** [Array.prototype.splice(start, deleteCount, ...items)]. *)
Definition splice (l : list string) (start deleteCount : Z) (items : list string)
  : list string :=
  let len := Z.of_nat (length l) in
  let from := if start <? 0 then Z.max (len + start) 0 else Z.min start len in
  let cnt := Z.min (Z.max deleteCount 0) (len - from) in
  take (Z.to_nat from) l ++ items ++ drop (Z.to_nat (from + cnt)) l.

(** [l[i]]; [None] stands for [undefined]. *)
Definition at_index (l : list string) (i : Z) : option string :=
  if i <? 0 then None else l !! Z.to_nat i.

(** ** The helpers of [../../common] *)

Module util.

(** Modelled from the spec: [util.indexOf] of [../../common] is not among
    the sources; the position of the first element equal to [item], or
    -1 (the "not found" of the "Predecessor lookup" paragraph). *)
Fixpoint indexOf (l : list string) (item : string) : Z :=
  match l with
  | [] => -1
  | x :: r =>
      if decide (item = x) then 0
      else let i := indexOf r item in if i =? -1 then -1 else i + 1
  end.

(** Modelled from the spec: [util.has] of [../../common] is not among the
    sources; whether the object has the key ("is tracked"). *)
Definition has {V} (o : JsObject.t V) (k : string) : bool := JsObject.has o k.

(** Modelled from the spec: [util.toArray] of [../../common] is not among
    the sources; the values of the object as an array. *)
Definition toArray {V} (o : JsObject.t V) : list V := JsObject.values o.

(** Modelled from the spec: [util.remove] of [../../common] is not among
    the sources; takes the item out of the array where [indexOf] finds
    it, and leaves the array alone when it does not ("removes it from
    the ordered sequence (no-op if it was never inserted)"). *)
Definition remove (l : list string) (item : string) : list string :=
  let i := indexOf l item in
  if -1 <? i then splice l i 1 [] else l.

End util.

(** ** Running a method: final state, sent effects, and how it ended *)

Inductive completion (A : Type) :=
| Normal (a : A)
| Thrown (msg : string).
Arguments Normal {A} a.
Arguments Thrown {A} msg.

Record Result (S A : Type) := mkResult {
  outcome : completion A;
  after : S;
  trace : list effect
}.
Arguments mkResult {S A} outcome after trace.
Arguments outcome {S A} r.
Arguments after {S A} r.
Arguments trace {S A} r.

Definition M (S A : Type) : Type := S → Result S A.

Section Monad.
Context {S : Type}.

Definition ret {A} (a : A) : M S A := λ s, mkResult (Normal a) s [].

Definition bind {A B} (m : M S A) (f : A → M S B) : M S B := λ s,
  let r := m s in
  match outcome r with
  | Normal a =>
      let r' := f a (after r) in
      mkResult (outcome r') (after r') (trace r ++ trace r')
  | Thrown msg => mkResult (Thrown msg) (after r) (trace r)
  end.

Definition gets {A} (f : S → A) : M S A := λ s, mkResult (Normal (f s)) s [].
Definition modify (f : S → S) : M S unit := λ s, mkResult (Normal tt) (f s) [].
Definition perform (e : effect) : M S unit := λ s, mkResult (Normal tt) s [e].
Definition throw {A} (msg : string) : M S A := λ s, mkResult (Thrown msg) s [].

(** A result with an earlier trace put in front of its own. *)
Definition preceded {A} (tr : list effect) (r : Result S A) : Result S A :=
  mkResult (outcome r) (after r) (tr ++ trace r).

End Monad.

Notation "'let*' x ':=' m 'in' k" := (bind m (λ x, k))
  (at level 10, x name, m at level 100, k at level 200, only parsing).
Notation "m >>> k" := (bind m (λ _, k))
  (at level 100, k at level 200, right associativity, only parsing).

(** ** RecordList *)

Module RecordList.

(** An entry of [this.loading]: [{rec: rec, prev: prevChild}]. *)
Record Loading := mkLoading { rec : RecHandle; prev : option string }.

(** The fields [_reset] initialises.  [obs] and [url] never change and
    are left out. *)
Record t := mk {
  recs : JsObject.t RecHandle;
  recIds : list string;
  snaps : JsObject.t Snapshot;
  loading : gmap string Loading;
  loadComplete : bool;
  initialKeysLeft : list string;
  masterLoaded : bool
}.

Definition with_recs f s :=
  mk (f (recs s)) (recIds s) (snaps s) (loading s) (loadComplete s)
    (initialKeysLeft s) (masterLoaded s).
Definition with_recIds f s :=
  mk (recs s) (f (recIds s)) (snaps s) (loading s) (loadComplete s)
    (initialKeysLeft s) (masterLoaded s).
Definition with_snaps f s :=
  mk (recs s) (recIds s) (f (snaps s)) (loading s) (loadComplete s)
    (initialKeysLeft s) (masterLoaded s).
Definition with_loading f s :=
  mk (recs s) (recIds s) (snaps s) (f (loading s)) (loadComplete s)
    (initialKeysLeft s) (masterLoaded s).
Definition with_loadComplete b s :=
  mk (recs s) (recIds s) (snaps s) (loading s) b
    (initialKeysLeft s) (masterLoaded s).
Definition with_initialKeysLeft f s :=
  mk (recs s) (recIds s) (snaps s) (loading s) (loadComplete s)
    (f (initialKeysLeft s)) (masterLoaded s).
Definition with_masterLoaded b s :=
  mk (recs s) (recIds s) (snaps s) (loading s) (loadComplete s)
    (initialKeysLeft s) b.

(** The state [_reset] leaves, which is also that of a new list. *)
Definition empty : t := mk [] [] [] ∅ false [] false.

(** [this.snaps[key]] *)
Definition snap_of (s : t) (key : string) : jsval :=
  match JsObject.get (snaps s) key with
  | Some v => JSnap v
  | None => JUndefined
  end.

(** A key is truthy unless it is the empty string. *)
Definition truthy (key : option string) : bool :=
  match key with
  | Some k => negb (bool_decide (k = EmptyString))
  | None => false
  end.

(** [findKey], lines 108-111. *)
Definition findKey (key : string) : M t Z :=
  let* ids := gets recIds in
  ret (util.indexOf ids key).

(** [_notifyValue], lines 170-175; the debug log is left out. *)
Definition _notifyValue : M t unit :=
  let* done := gets loadComplete in
  if done then
    let* sn := gets snaps in
    perform (Emit (Value (util.toArray sn)))
  else ret tt.

(** [_getPrevChild], lines 177-189.  The result is a key or null; both
    array reads are within range, as [recIds] is not empty there and
    [pos] is at least 1 in the last branch. *)
Definition _getPrevChild (key : string) : M t (option string) :=
  let* ids := gets recIds in
  if Z.of_nat (length ids) =? 0 then ret None
  else
    let* pos := findKey key in
    if pos =? -1 then ret (at_index ids (Z.of_nat (length ids) - 1))
    else if pos =? 0 then ret None
    else ret (at_index ids (pos - 1)).

(** [_posFor], lines 191-201; [None] is [prevKey === null]. *)
Definition _posFor (prevKey : option string) : M t Z :=
  match prevKey with
  | None => ret 0
  | Some p =>
      let* x := findKey p in
      let* ids := gets recIds in
      ret (if x =? -1 then Z.of_nat (length ids) else x + 1)
  end.

(** [_putAfter], lines 203-206. *)
Definition _putAfter (key : string) (prevChild : option string) : M t unit :=
  let* newPos := _posFor prevChild in
  modify (with_recIds (λ ids, splice ids newPos 0 [key])).

(** [_notify], lines 147-168: the switch builds the arguments or throws,
    then the handler of the event is applied to them, then
    [_notifyValue] runs.  [oldSnap] is [JUndefined] where the caller
    passes two arguments. *)
Definition _notify (event : string) (key : string) (oldSnap : jsval) : M t unit :=
  (if bool_decide (event = "child_added") then
     let* prev := _getPrevChild key in
     let* snap := gets (λ s, snap_of s key) in
     perform (Emit (ChildAdded key snap prev))
   else if bool_decide (event = "child_moved") then
     let* prev := _getPrevChild key in
     let* snap := gets (λ s, snap_of s key) in
     perform (Emit (ChildMoved key snap prev))
   else if bool_decide (event = "child_changed") then
     let* snap := gets (λ s, snap_of s key) in
     perform (Emit (ChildChanged key snap))
   else if bool_decide (event = "child_removed") then
     perform (Emit (ChildRemoved key oldSnap))
   else
     throw ("Invalid event type " +:+ event +:+ " for key " +:+ key)) >>>
  _notifyValue.

(** [_dropRecord], lines 208-219: the snapshot of an active record, which
    it drops, or null. *)
Definition _dropRecord (key : string) : M t jsval :=
  let* rs := gets recs in
  match JsObject.get rs key with
  | Some r =>
      let* snap := gets (λ s, snap_of s key) in
      perform (Unwatch r ValueUpdatedMethod) >>>
      modify (with_recs (JsObject.del key)) >>>
      modify (with_snaps (JsObject.del key)) >>>
      modify (with_loading (delete key)) >>>
      modify (with_recIds (λ ids, util.remove ids key)) >>>
      ret snap
  | None => ret JNull
  end.

(** [_checkLoadState], lines 227-238; [None] is the call without a key. *)
Definition _checkLoadState (key : option string) : M t unit :=
  let* done := gets loadComplete in
  if done then ret tt
  else
    match key with
    | Some k =>
        if truthy key
        then modify (with_initialKeysLeft (λ l, util.remove l k))
        else ret tt
    | None => ret tt
    end >>>
    let* left := gets initialKeysLeft in
    let* loaded := gets masterLoaded in
    if (Z.of_nat (length left) =? 0) && loaded then
      modify (with_loadComplete true) >>>
      if truthy key then ret tt else _notifyValue
    else ret tt.

(** [add], lines 71-79. *)
Definition add (key : string) (prevChild : option string) : M t unit :=
  let r := Child key in
  modify (with_loading (insert key (mkLoading r prevChild))) >>>
  let* done := gets loadComplete in
  (if done then ret tt
   else modify (with_initialKeysLeft (λ l, l ++ [key]))) >>>
  perform (Watch r (BoundValueUpdated key)).

(** [remove], lines 81-87; [oldSnap !== null] holds of [undefined] too. *)
Definition remove (key : string) : M t unit :=
  let* oldSnap := _dropRecord key in
  match oldSnap with
  | JNull => ret tt
  | _ => _notify "child_removed" key oldSnap
  end.

(** [move], lines 89-96. *)
Definition move (key : string) (prevChild : option string) : M t unit :=
  let* rs := gets recs in
  if util.has rs key then
    let* ids := gets recIds in
    let currPos := util.indexOf ids key in
    modify (with_recIds (λ ids, splice ids currPos 1 [])) >>>
    _putAfter key prevChild >>>
    _notify "child_moved" key JUndefined
  else ret tt.

(** [masterPathLoaded], lines 98-102. *)
Definition masterPathLoaded : M t unit :=
  modify (with_masterLoaded true) >>>
  _checkLoadState None.

(** Modelled from the spec: [util.each] of [../../common] is not among the
    sources; calls the function once for every key the object holds
    ("for every key currently in the active-record map"), skipping a key
    that is gone by the time its turn comes. *)
Fixpoint each_rec (ks : list string) (f : string → M t unit) : M t unit :=
  match ks with
  | [] => ret tt
  | k :: rest =>
      let* rs := gets recs in
      (if util.has rs k then f k else ret tt) >>>
      each_rec rest f
  end.

(** [_reset], lines 113-124. *)
Definition _reset : M t unit :=
  let* rs := gets recs in
  each_rec (JsObject.keys rs) remove >>>
  modify (λ _, empty).

(** [unloaded], lines 104-106. *)
Definition unloaded : M t unit := _reset.

(** [_valueUpdated], lines 126-145; the orphan branch only logs. *)
Definition _valueUpdated (key : string) (snap : Snapshot) : M t unit :=
  modify (with_snaps (JsObject.set key snap)) >>>
  let* ld := gets loading in
  match ld !! key with
  | Some r =>
      modify (with_loading (delete key)) >>>
      modify (with_recs (JsObject.set key (rec r))) >>>
      _putAfter key (prev r) >>>
      _checkLoadState (Some key) >>>
      _notify "child_added" key JUndefined
  | None =>
      let* rs := gets recs in
      if util.has rs key then _notify "child_changed" key JUndefined
      else ret tt
  end.

End RecordList.

(** ** RecordSetEventManager *)

Module RecordSetEventManager.

(** [masterRef] and [url] never change and are left out. *)
Record t := mk { recList : RecordList.t; running : bool }.

Definition new : t := mk RecordList.empty false.

(** Runs a method of [this.recList]. *)
Definition on_recList {A} (m : M RecordList.t A) : M t A := λ e,
  let r := m (recList e) in
  mkResult (outcome r) (mk (after r) (running e)) (trace r).

(** [start], lines 23-37. *)
Definition start : M t unit :=
  let* on := gets running in
  if negb on then
    modify (λ e, mk (recList e) true) >>>
    perform (MasterOn "child_added") >>>
    perform (MasterOn "child_removed") >>>
    perform (MasterOn "child_moved") >>>
    perform (MasterOnce "value")
  else ret tt.

(** [stop], lines 39-49. *)
Definition stop : M t unit :=
  let* on := gets running in
  if on then
    modify (λ e, mk (recList e) false) >>>
    perform (MasterOff "child_added") >>>
    perform (MasterOff "child_removed") >>>
    perform (MasterOff "child_moved") >>>
    on_recList RecordList.unloaded
  else ret tt.

(** [_add], [_remove], [_move], lines 51-61. *)
Definition _add (snap : Snapshot) (prevChild : option string) : M t unit :=
  on_recList (RecordList.add (skey snap) prevChild).

Definition _remove (snap : Snapshot) : M t unit :=
  on_recList (RecordList.remove (skey snap)).

Definition _move (snap : Snapshot) (prevChild : option string) : M t unit :=
  on_recList (RecordList.move (skey snap) prevChild).

End RecordSetEventManager.

(** ** Sessions: what can happen to a record list, in any order *)

(** The master list's three ordering events and its one-time [value], the
    manager's [stop], and a value arriving on a child's stream (the
    callback bound in [add]). *)
Inductive op :=
| Add (key : string) (prevChild : option string)
| Remove (key : string)
| Move (key : string) (prevChild : option string)
| MasterPathLoaded
| Unloaded
| ValueUpdated (key : string) (snap : Snapshot).

Global Instance op_eq_dec : EqDecision op.
Proof. solve_decision. Defined.

Definition step (o : op) : M RecordList.t unit :=
  match o with
  | Add key prevChild => RecordList.add key prevChild
  | Remove key => RecordList.remove key
  | Move key prevChild => RecordList.move key prevChild
  | MasterPathLoaded => RecordList.masterPathLoaded
  | Unloaded => RecordList.unloaded
  | ValueUpdated key snap => RecordList._valueUpdated key snap
  end.

Fixpoint run (ops : list op) : M RecordList.t unit :=
  match ops with
  | [] => ret tt
  | o :: rest => step o >>> run rest
  end.

(** The list as it is after the operations, starting from a new one. *)
Definition session (ops : list op) : RecordList.t := after (run ops RecordList.empty).

(** The states a run passes through, one after each operation. *)
Fixpoint states_along (ops : list op) (s : RecordList.t) : list RecordList.t :=
  match ops with
  | [] => []
  | o :: rest => let s' := after (step o s) in s' :: states_along rest s'
  end.

Definition is_value (e : effect) : bool :=
  match e with Emit (Value _) => true | _ => false end.

(** How many aggregate [value] notifications a trace holds. *)
Definition count_values (tr : list effect) : nat := length (filter is_value tr).

(** How often a flag goes from false to true along a list of readings. *)
Fixpoint rises (flags : list bool) : nat :=
  match flags with
  | false :: ((true :: _) as rest) => S (rises rest)
  | _ :: rest => rises rest
  | [] => 0%nat
  end.

(** ** What each method computes *)

Import RecordList.

(** The trace of [_notifyValue]. *)
Definition value_trace (s : RecordList.t) : list effect :=
  if loadComplete s then [Emit (Value (util.toArray (snaps s)))] else [].

(** The result of [_getPrevChild] on a given [recIds]. *)
Definition prev_child (ids : list string) (key : string) : option string :=
  if Z.of_nat (length ids) =? 0 then None
  else
    let pos := util.indexOf ids key in
    if pos =? -1 then at_index ids (Z.of_nat (length ids) - 1)
    else if pos =? 0 then None
    else at_index ids (pos - 1).

(** The result of [_posFor] on a given [recIds]. *)
Definition pos_for (ids : list string) (prevKey : option string) : Z :=
  match prevKey with
  | None => 0
  | Some p =>
      let x := util.indexOf ids p in
      if x =? -1 then Z.of_nat (length ids) else x + 1
  end.

(** [recIds] after [_putAfter]. *)
Definition put_after (key : string) (prevChild : option string)
    (ids : list string) : list string :=
  splice ids (pos_for ids prevChild) 0 [key].

(** The list after the four deletions of [_dropRecord]. *)
Definition dropped (key : string) (s : RecordList.t) : RecordList.t :=
  with_recIds (λ ids, util.remove ids key)
    (with_loading (delete key)
       (with_snaps (JsObject.del key) (with_recs (JsObject.del key) s))).

(** The list after [_checkLoadState]. *)
Definition checked (key : option string) (s : RecordList.t) : RecordList.t :=
  if loadComplete s then s
  else
    let s1 :=
      match key with
      | Some k =>
          if truthy key then with_initialKeysLeft (λ l, util.remove l k) s else s
      | None => s
      end in
    if (Z.of_nat (length (initialKeysLeft s1)) =? 0) && masterLoaded s1
    then with_loadComplete true s1
    else s1.

(** The list after a first value: the pending record promoted and placed. *)
Definition promoted (key : string) (snap : Snapshot) (r : Loading)
    (s : RecordList.t) : RecordList.t :=
  with_recIds (put_after key (prev r))
    (with_recs (JsObject.set key (rec r))
       (with_loading (delete key) (with_snaps (JsObject.set key snap) s))).

(** ** The invariant of a record list *)

Record wf (s : RecordList.t) : Prop := mk_wf {
  (** [loadComplete] is set exactly when the master list has loaded and no
      key of the first batch is still waiting for its value. *)
  wf_load :
    loadComplete s = true ↔ masterLoaded s = true ∧ initialKeysLeft s = [];
  (** Every active record has a snapshot. *)
  wf_snaps : ∀ k, util.has (recs s) k = true → util.has (snaps s) k = true;
  (** Every active record has a place in [recIds]. *)
  wf_ids : ∀ k, util.has (recs s) k = true → k ∈ recIds s
}.

(** ** Scenarios and what the specification expects *)

(** The payload as the specification words it: the snapshots of the
    active records, in the order of [recIds]. *)
Definition payload_in_sequence_order (s : RecordList.t) : list Snapshot :=
  omap (λ k, if util.has (recs s) k then JsObject.get (snaps s) k else None)
    (recIds s).

(** [_notifyValue] fired on [s] with payload [p]. *)
Definition dumps (p : list Snapshot) (s : RecordList.t) : Prop :=
  loadComplete s = true ∧ p = util.toArray (snaps s).

(** Section 8, scenario 1. *)
Definition scenario_1 : list op :=
  [Add "A" None; Add "B" (Some "A"); Add "C" (Some "A");
   ValueUpdated "A" (mkSnap "A" 1); ValueUpdated "C" (mkSnap "C" 3);
   ValueUpdated "B" (mkSnap "B" 2); MasterPathLoaded].

(** A loaded list with A, B and C in that order. *)
Definition loaded_ABC : list op :=
  [Add "A" None; Add "B" (Some "A"); Add "C" (Some "B");
   ValueUpdated "A" (mkSnap "A" 1); ValueUpdated "B" (mkSnap "B" 2);
   ValueUpdated "C" (mkSnap "C" 3); MasterPathLoaded].

(** What [add] hands to [watch] and what [_dropRecord] hands to
    [unwatch]. *)
Definition watch_shape (e : effect) : Prop :=
  match e with
  | Watch (Child key) cb => cb = BoundValueUpdated key
  | Unwatch _ cb => cb = ValueUpdatedMethod
  | _ => True
  end.

(** ** How a session uses the list *)

(** The key has a pending record, an active record, or either. *)
Definition pending (s : RecordList.t) (k : string) : bool :=
  bool_decide (is_Some (loading s !! k)).
Definition active (s : RecordList.t) (k : string) : bool := util.has (recs s) k.
Definition tracked (s : RecordList.t) (k : string) : bool :=
  pending s k || active s k.

(** [add] comes for a key that is not the empty string and not tracked. *)
Definition fresh_add (o : op) (s : RecordList.t) : bool :=
  match o with
  | Add k _ => negb (bool_decide (k = EmptyString)) && negb (tracked s k)
  | _ => true
  end.

(** A value comes for a tracked key only. *)
Definition no_orphan (o : op) (s : RecordList.t) : bool :=
  match o with
  | ValueUpdated k _ => tracked s k
  | _ => true
  end.

(** The condition holds of every operation of the run, on the list as the
    operation finds it. *)
Fixpoint along (P : op → RecordList.t → bool) (ops : list op)
    (s : RecordList.t) : bool :=
  match ops with
  | [] => true
  | o :: rest => P o s && along P rest (after (step o s))
  end.

(** The key an operation is about. *)
Definition key_of (o : op) : option string :=
  match o with
  | Add k _ | Remove k | Move k _ | ValueUpdated k _ => Some k
  | MasterPathLoaded | Unloaded => None
  end.

Definition is_child (e : effect) : bool :=
  match e with
  | Emit (Value _) => false
  | Emit _ => true
  | _ => false
  end.

(** How many [child_*] notifications a trace holds. *)
Definition count_children (tr : list effect) : nat := length (filter is_child tr).

(** The [child_removed] notifications of a trace, in order. *)
Definition removals (tr : list effect) : list (string * jsval) :=
  omap (λ e, match e with
             | Emit (ChildRemoved k sn) => Some (k, sn)
             | _ => None
             end) tr.

(** The records [unwatch] was called on, in order. *)
Definition unwatched (tr : list effect) : list RecHandle :=
  omap (λ e, match e with Unwatch r _ => Some r | _ => None end) tr.

(** What holds of a list that never saw [add] for a tracked key. *)
Record tidy (s : RecordList.t) : Prop := mk_tidy {
  tidy_ids : NoDup (recIds s);
  tidy_active : ∀ k, k ∈ recIds s ↔ util.has (recs s) k = true;
  tidy_pending : ∀ k, is_Some (loading s !! k) → util.has (recs s) k = false;
  tidy_left : NoDup (initialKeysLeft s);
  tidy_left_pending :
    ∀ k, k ∈ initialKeysLeft s → is_Some (loading s !! k);
  tidy_key : loading s !! EmptyString = None
}.

(** The own properties of the two objects are listed once each. *)
Definition objects_ok (s : RecordList.t) : Prop :=
  NoDup (JsObject.keys (recs s)) ∧ NoDup (JsObject.keys (snaps s)).

(** ** Keys that are property names, and the payloads of a trace *)

(** The operation is not about the key [__proto__], which is no property
    name of the objects [recs], [snaps] and [loading]. *)
Definition plain (o : op) : bool :=
  negb (bool_decide (key_of o = Some "__proto__")).

Definition plain_keys (ops : list op) : bool := forallb plain ops.




(** * Properties *)

(** ** Stepping through [bind] *)

Section MonadFacts.
Context {S : Type}.

Lemma bind_run {A B} (m : M S A) (f : A → M S B) s a s1 tr :
  m s = mkResult (Normal a) s1 tr →
  bind m f s = preceded tr (f a s1).
Proof. unfold bind. by intros ->. Qed.

Lemma preceded_nil {A} (r : Result S A) : preceded [] r = r.
Proof. by destruct r. Qed.
End MonadFacts.

(** ** Objects *)

Section JsObjectFacts.
Context {V : Type}.
Implicit Types (o : JsObject.t V) (k : string) (v : V).

Lemma has_get o k : JsObject.has o k = true ↔ is_Some (JsObject.get o k).
Proof.
  unfold JsObject.has. destruct (JsObject.get o k); split;
    first [done | by eexists | by intros [? ?]].
Qed.

Lemma has_false_get o k : JsObject.has o k = false ↔ JsObject.get o k = None.
Proof. unfold JsObject.has. by destruct (JsObject.get o k). Qed.

Lemma get_replace_eq o k v :
  is_Some (JsObject.get o k) → JsObject.get (JsObject.replace k v o) k = Some v.
Proof.
  induction o as [|[k' v'] o IH]; cbn; intros H.
  - by destruct H.
  - destruct (decide (k = k')) as [->|Hne]; cbn.
    + by rewrite decide_True.
    + rewrite decide_False by done. auto.
Qed.

Lemma get_replace_ne o k k' v :
  k ≠ k' → JsObject.get (JsObject.replace k v o) k' = JsObject.get o k'.
Proof.
  intros Hne. induction o as [|[k0 v0] o IH]; cbn; [done|].
  destruct (decide (k = k0)) as [->|]; cbn.
  - by rewrite !decide_False by done.
  - by rewrite IH.
Qed.

Lemma get_create_eq o k v :
  JsObject.get o k = None → JsObject.get (JsObject.create k v o) k = Some v.
Proof.
  induction o as [|[k' v'] o IH]; cbn; intros H.
  - by rewrite decide_True.
  - destruct (decide (k = k')); [done|].
    destruct (JsObject.comes_before k k'); cbn.
    + by rewrite decide_True.
    + rewrite decide_False by done. auto.
Qed.

Lemma get_create_ne o k k' v :
  k ≠ k' → JsObject.get (JsObject.create k v o) k' = JsObject.get o k'.
Proof.
  intros Hne. induction o as [|[k0 v0] o IH]; cbn.
  - by rewrite decide_False.
  - destruct (JsObject.comes_before k k0); cbn.
    + by rewrite (decide_False (P := k' = k)).
    + by rewrite IH.
Qed.

Lemma get_set_eq o k v : JsObject.get (JsObject.set k v o) k = Some v.
Proof.
  unfold JsObject.set. destruct (JsObject.has o k) eqn:E.
  - apply get_replace_eq. by apply has_get.
  - apply get_create_eq. by apply has_false_get.
Qed.

Lemma get_set_ne o k k' v :
  k ≠ k' → JsObject.get (JsObject.set k v o) k' = JsObject.get o k'.
Proof.
  intros. unfold JsObject.set.
  destruct (JsObject.has o k); auto using get_replace_ne, get_create_ne.
Qed.

Lemma get_del_eq o k : JsObject.get (JsObject.del k o) k = None.
Proof.
  unfold JsObject.del. induction o as [|[k' v'] o IH]; [done|].
  rewrite filter_cons. cbn. destruct (decide (k ≠ k')) as [Hne|]; [|done].
  cbn. by rewrite decide_False.
Qed.

Lemma get_del_ne o k k' :
  k ≠ k' → JsObject.get (JsObject.del k o) k' = JsObject.get o k'.
Proof.
  intros Hne. unfold JsObject.del. induction o as [|[k0 v0] o IH]; [done|].
  rewrite filter_cons. cbn. destruct (decide (k ≠ k0)) as [|Heq]; cbn.
  - by rewrite IH.
  - apply dec_stable in Heq as <-. by rewrite decide_False.
Qed.

Lemma has_keys_replace o k v :
  JsObject.keys (JsObject.replace k v o) = JsObject.keys o.
Proof.
  unfold JsObject.keys. induction o as [|[k' v'] o IH]; [done|]. cbn.
  destruct (decide (k = k')) as [->|]; cbn; [done|]. by rewrite IH.
Qed.

Lemma create_plain_key o k v :
  JsObject.array_index k = None → JsObject.create k v o = o ++ [(k, v)].
Proof.
  intros Hk. induction o as [|[k' v'] o IH]; [done|]. cbn.
  unfold JsObject.comes_before. rewrite Hk. by rewrite IH.
Qed.

(** A key that is not an array index and is new to the object goes to
    the end; a key the object already has keeps its place. *)
Lemma set_order o k v :
  (JsObject.get o k = None → JsObject.array_index k = None →
   JsObject.values (JsObject.set k v o) = JsObject.values o ++ [v])
  ∧ (is_Some (JsObject.get o k) →
     JsObject.keys (JsObject.set k v o) = JsObject.keys o).
Proof.
  unfold JsObject.set. split.
  - intros Hnew%has_false_get Hk. rewrite Hnew, create_plain_key by done.
    unfold JsObject.values. by rewrite fmap_app.
  - intros Hold%has_get. rewrite Hold. apply has_keys_replace.
Qed.


End JsObjectFacts.

(** ** Arrays *)

Section ArrayFacts.
Implicit Types (l : list string) (x y : string).

Lemma indexOf_ge l x : -1 ≤ util.indexOf l x.
Proof.
  induction l as [|a l IH]; cbn; [lia|].
  destruct (decide (x = a)); [lia|].
  destruct (Z.eqb_spec (util.indexOf l x) (-1)); lia.
Qed.

Lemma indexOf_notin l x : util.indexOf l x = -1 ↔ x ∉ l.
Proof.
  induction l as [|a l IH]; cbn.
  - split; [intros _; apply not_elem_of_nil | done].
  - rewrite not_elem_of_cons. pose proof (indexOf_ge l x).
    destruct (decide (x = a)) as [->|Hne].
    + split; [lia | by intros [? _]].
    + destruct (Z.eqb_spec (util.indexOf l x) (-1)) as [E|E].
      * split; [|done]. intros _. split; [done|]. by apply IH.
      * split; [lia|]. intros [_ H1]. by apply IH in H1.
Qed.

Lemma indexOf_app l1 l2 x :
  x ∉ l1 → util.indexOf (l1 ++ x :: l2) x = Z.of_nat (length l1).
Proof.
  induction l1 as [|a l1 IH]; cbn; intros Hn.
  - by rewrite decide_True.
  - apply not_elem_of_cons in Hn as [Hne Hn].
    rewrite decide_False by done. rewrite IH by done.
    destruct (Z.eqb_spec (Z.of_nat (length l1)) (-1)); lia.
Qed.

Lemma indexOf_split l x :
  x ∈ l → ∃ l1 l2, l = l1 ++ x :: l2 ∧ x ∉ l1.
Proof.
  induction l as [|a l IH]; [by intros ?%elem_of_nil|].
  destruct (decide (x = a)) as [->|Hne]; intros Hin.
  - exists [], l. split; [done | apply not_elem_of_nil].
  - apply elem_of_cons in Hin as [?|Hin]; [done|].
    destruct (IH Hin) as (l1 & l2 & -> & Hn).
    exists (a :: l1), l2. split; [done|]. by apply not_elem_of_cons.
Qed.

Lemma splice_insert l1 l2 x :
  splice (l1 ++ l2) (Z.of_nat (length l1)) 0 [x] = l1 ++ x :: l2.
Proof.
  unfold splice. rewrite length_app.
  destruct (Z.ltb_spec (Z.of_nat (length l1)) 0); [lia|].
  rewrite Z.min_l by lia. rewrite Z.max_l by lia. rewrite Z.min_l by lia.
  rewrite Z.add_0_r, Nat2Z.id.
  by rewrite take_app_length, drop_app_length.
Qed.

Lemma splice_at_end l x : splice l (Z.of_nat (length l)) 0 [x] = l ++ [x].
Proof.
  pose proof (splice_insert l [] x) as H. by rewrite app_nil_r in H.
Qed.

Lemma splice_at_start l x : splice l 0 0 [x] = x :: l.
Proof. apply (splice_insert [] l x). Qed.

Lemma splice_delete l1 l2 x :
  splice (l1 ++ x :: l2) (Z.of_nat (length l1)) 1 [] = l1 ++ l2.
Proof.
  unfold splice. rewrite length_app. cbn [length].
  destruct (Z.ltb_spec (Z.of_nat (length l1)) 0); [lia|].
  rewrite Z.min_l by lia. rewrite Z.max_l by lia. rewrite Z.min_l by lia.
  rewrite Nat2Z.id. rewrite take_app_length.
  replace (Z.to_nat (Z.of_nat (length l1) + 1)) with (length l1 + 1)%nat by lia.
  rewrite drop_app_add'; [|done]. done.
Qed.

Lemma remove_notin l x : x ∉ l → util.remove l x = l.
Proof.
  intros Hn%indexOf_notin. unfold util.remove. by rewrite Hn.
Qed.

Lemma remove_app l1 l2 x :
  x ∉ l1 → util.remove (l1 ++ x :: l2) x = l1 ++ l2.
Proof.
  intros Hn. unfold util.remove. rewrite indexOf_app by done.
  destruct (Z.ltb_spec (-1) (Z.of_nat (length l1))); [|lia].
  apply splice_delete.
Qed.

Lemma elem_of_remove_ne l x y : y ≠ x → y ∈ l → y ∈ util.remove l x.
Proof.
  intros Hne. destruct (decide (x ∈ l)) as [Hin|Hn].
  - destruct (indexOf_split l x Hin) as (l1 & l2 & -> & Hn).
    rewrite remove_app by done. rewrite !elem_of_app, elem_of_cons. tauto.
  - by rewrite remove_notin.
Qed.
End ArrayFacts.

Ltac run_monad :=
  unfold bind, gets, modify, perform, ret, throw; cbn.

#[local] Arguments _getPrevChild : simpl never.
#[local] Arguments _notifyValue : simpl never.
#[local] Arguments _posFor : simpl never.
#[local] Arguments _putAfter : simpl never.
#[local] Arguments _notify : simpl never.
#[local] Arguments _dropRecord : simpl never.
#[local] Arguments _checkLoadState : simpl never.
#[local] Arguments remove : simpl never.
#[local] Arguments value_trace : simpl never.
#[local] Arguments checked : simpl never.
#[local] Arguments dropped : simpl never.
#[local] Arguments promoted : simpl never.
#[local] Arguments put_after : simpl never.
#[local] Arguments prev_child : simpl never.

Ltac pick_case :=
  repeat first
    [ rewrite bool_decide_eq_true_2 by done
    | rewrite bool_decide_eq_false_2 by done ].

(** One step through a [bind] whose first part has a known result. *)
Ltac step_by E := erewrite bind_run by (first [apply E | reflexivity]).
Ltac step := erewrite bind_run by reflexivity.

Section Equations.
Implicit Types (s : RecordList.t) (key : string).

Lemma notifyValue_eq s :
  _notifyValue s = mkResult (Normal tt) s (value_trace s).
Proof.
  unfold _notifyValue, value_trace. run_monad.
  by destruct (loadComplete s).
Qed.

Lemma getPrevChild_eq key s :
  _getPrevChild key s = mkResult (Normal (prev_child (recIds s) key)) s [].
Proof.
  unfold _getPrevChild, findKey, prev_child. run_monad.
  destruct (Z.of_nat (length (recIds s)) =? 0); [done|]. cbn.
  destruct (util.indexOf (recIds s) key =? -1); [done|].
  by destruct (util.indexOf (recIds s) key =? 0).
Qed.

Lemma posFor_eq prevKey s :
  _posFor prevKey s = mkResult (Normal (pos_for (recIds s) prevKey)) s [].
Proof. by destruct prevKey. Qed.

Lemma putAfter_eq key prevChild s :
  _putAfter key prevChild s
  = mkResult (Normal tt) (with_recIds (put_after key prevChild) s) [].
Proof. unfold _putAfter. by step_by posFor_eq. Qed.

Lemma notify_child_added key oldSnap s :
  _notify "child_added" key oldSnap s
  = mkResult (Normal tt) s
      (Emit (ChildAdded key (snap_of s key) (prev_child (recIds s) key))
         :: value_trace s).
Proof.
  unfold _notify. pick_case.
  erewrite bind_run by (step_by getPrevChild_eq; reflexivity).
  by rewrite notifyValue_eq.
Qed.

Lemma notify_child_moved key oldSnap s :
  _notify "child_moved" key oldSnap s
  = mkResult (Normal tt) s
      (Emit (ChildMoved key (snap_of s key) (prev_child (recIds s) key))
         :: value_trace s).
Proof.
  unfold _notify. pick_case.
  erewrite bind_run by (step_by getPrevChild_eq; reflexivity).
  by rewrite notifyValue_eq.
Qed.

Lemma notify_child_changed key oldSnap s :
  _notify "child_changed" key oldSnap s
  = mkResult (Normal tt) s
      (Emit (ChildChanged key (snap_of s key)) :: value_trace s).
Proof.
  unfold _notify. pick_case. step. by rewrite notifyValue_eq.
Qed.

Lemma notify_child_removed key oldSnap s :
  _notify "child_removed" key oldSnap s
  = mkResult (Normal tt) s (Emit (ChildRemoved key oldSnap) :: value_trace s).
Proof.
  unfold _notify. pick_case. step. by rewrite notifyValue_eq.
Qed.

Lemma dropRecord_eq key s :
  _dropRecord key s
  = match JsObject.get (recs s) key with
    | Some r =>
        mkResult (Normal (snap_of s key)) (dropped key s)
          [Unwatch r ValueUpdatedMethod]
    | None => mkResult (Normal JNull) s []
    end.
Proof.
  unfold _dropRecord. run_monad. by destruct (JsObject.get (recs s) key).
Qed.

Lemma remove_eq key s :
  remove key s
  = match JsObject.get (recs s) key with
    | Some r =>
        mkResult (Normal tt) (dropped key s)
          (Unwatch r ValueUpdatedMethod
             :: Emit (ChildRemoved key (snap_of s key))
             :: value_trace (dropped key s))
    | None => mkResult (Normal tt) s []
    end.
Proof.
  unfold remove.
  destruct (JsObject.get (recs s) key) as [r|] eqn:Hr.
  - erewrite bind_run by (rewrite dropRecord_eq, Hr; reflexivity).
    unfold snap_of.
    destruct (JsObject.get (snaps s) key); by rewrite notify_child_removed.
  - by erewrite bind_run by (rewrite dropRecord_eq, Hr; reflexivity).
Qed.

Lemma checkLoadState_eq okey s :
  _checkLoadState okey s
  = mkResult (Normal tt) (checked okey s)
      (if negb (loadComplete s) && loadComplete (checked okey s)
            && negb (truthy okey)
       then value_trace (checked okey s) else []).
Proof.
  unfold _checkLoadState, checked. step. rewrite preceded_nil.
  destruct (loadComplete s) eqn:Hdone; [done|].
  assert (∀ s1, loadComplete s1 = false →
    (let* left := gets initialKeysLeft in
     let* loaded := gets masterLoaded in
     if (Z.of_nat (length left) =? 0) && loaded
     then modify (with_loadComplete true) >>>
          (if truthy okey then ret tt else _notifyValue)
     else ret tt) s1
    = mkResult (Normal tt)
        (if (Z.of_nat (length (initialKeysLeft s1)) =? 0) && masterLoaded s1
         then with_loadComplete true s1 else s1)
        (if (Z.of_nat (length (initialKeysLeft s1)) =? 0) && masterLoaded s1
         then if truthy okey then []
              else value_trace (with_loadComplete true s1)
         else [])) as Hrest.
  { intros s1 H1. do 2 step. rewrite !preceded_nil.
    destruct (_ && _); [|done]. step. rewrite preceded_nil.
    destruct (truthy okey); [done|]. by rewrite notifyValue_eq. }
  set (s1 := match okey with
             | Some k =>
                 if truthy okey
                 then with_initialKeysLeft (λ l, util.remove l k) s else s
             | None => s
             end).
  assert (loadComplete s1 = false) as H1.
  { subst s1. destruct okey as [k|]; [|done]. by destruct (truthy _). }
  rewrite (bind_run _ _ s tt s1 []).
  - rewrite preceded_nil, Hrest by done.
    destruct (_ && _) eqn:E; cbn; [|by rewrite H1].
    by destruct (truthy okey).
  - subst s1. destruct okey as [k|]; [|done]. by destruct (truthy _).
Qed.

Lemma add_eq key prevChild s :
  add key prevChild s
  = mkResult (Normal tt)
      ((if loadComplete s then id
        else with_initialKeysLeft (λ l, l ++ [key]))
         (with_loading (insert key (mkLoading (Child key) prevChild)) s))
      [Watch (Child key) (BoundValueUpdated key)].
Proof.
  unfold add. run_monad. by destruct (loadComplete s).
Qed.

Lemma move_eq key prevChild s :
  move key prevChild s
  = if util.has (recs s) key then
      let s' :=
        with_recIds
          (λ ids, put_after key prevChild
                    (splice ids (util.indexOf ids key) 1 [])) s in
      mkResult (Normal tt) s'
        (Emit (ChildMoved key (snap_of s' key) (prev_child (recIds s') key))
           :: value_trace s')
    else mkResult (Normal tt) s [].
Proof.
  unfold move. step.
  destruct (util.has (recs s) key); [|done].
  do 2 step. step_by putAfter_eq. by rewrite notify_child_moved.
Qed.

Lemma masterPathLoaded_eq s :
  masterPathLoaded s
  = let s' := checked None (with_masterLoaded true s) in
    mkResult (Normal tt) s'
      (if negb (loadComplete s) && loadComplete s'
       then value_trace s' else []).
Proof.
  unfold masterPathLoaded. step. rewrite checkLoadState_eq. cbn.
  by rewrite andb_true_r.
Qed.

Lemma valueUpdated_eq key snap s :
  _valueUpdated key snap s
  = match loading s !! key with
    | Some r =>
        let s' := checked (Some key) (promoted key snap r s) in
        mkResult (Normal tt) s'
          ((if negb (loadComplete s) && loadComplete s'
                 && bool_decide (key = EmptyString)
            then value_trace s' else [])
           ++ Emit (ChildAdded key (snap_of s' key)
                      (prev_child (recIds s') key))
           :: value_trace s')
    | None =>
        let s' := with_snaps (JsObject.set key snap) s in
        mkResult (Normal tt) s'
          (if util.has (recs s) key
           then Emit (ChildChanged key (snap_of s' key)) :: value_trace s'
           else [])
    end.
Proof.
  unfold _valueUpdated. do 2 step. cbn -[_notify _checkLoadState _putAfter].
  destruct (loading s !! key) as [r|].
  - do 2 step. step_by putAfter_eq. step_by checkLoadState_eq.
    rewrite notify_child_added. cbn. by rewrite negb_involutive.
  - step. cbn. destruct (util.has (recs s) key); [|done].
    by rewrite notify_child_changed.
Qed.
End Equations.

(** ** Where [_putAfter] places a key *)

Section PutAfter.
Implicit Types (ids l : list string) (key p : string).

Lemma put_after_first key ids : put_after key None ids = key :: ids.
Proof. apply splice_at_start. Qed.

Lemma put_after_absent key p ids :
  p ∉ ids → put_after key (Some p) ids = ids ++ [key].
Proof.
  intros Hn%indexOf_notin. unfold put_after, pos_for. rewrite Hn. cbn.
  apply splice_at_end.
Qed.

Lemma put_after_present key p l1 l2 :
  p ∉ l1 → put_after key (Some p) (l1 ++ p :: l2) = l1 ++ p :: key :: l2.
Proof.
  intros Hn. unfold put_after, pos_for. rewrite indexOf_app by done.
  destruct (Z.eqb_spec (Z.of_nat (length l1)) (-1)); [lia|].
  replace (Z.of_nat (length l1) + 1) with (Z.of_nat (length (l1 ++ [p])))
    by (rewrite length_app; cbn; lia).
  replace (l1 ++ p :: l2) with ((l1 ++ [p]) ++ l2) by by rewrite <- app_assoc.
  rewrite splice_insert. by rewrite <- app_assoc.
Qed.

Lemma elem_of_put_after key prevChild ids x :
  x ∈ put_after key prevChild ids ↔ x = key ∨ x ∈ ids.
Proof.
  destruct prevChild as [p|].
  - destruct (decide (p ∈ ids)) as [Hin|Hn].
    + destruct (indexOf_split ids p Hin) as (l1 & l2 & -> & Hn).
      rewrite put_after_present by done.
      repeat first [rewrite elem_of_app | rewrite elem_of_cons]. tauto.
    + rewrite put_after_absent by done.
      rewrite elem_of_app, list_elem_of_singleton. tauto.
  - rewrite put_after_first. apply elem_of_cons.
Qed.

Lemma splice_out_found ids key :
  key ∈ ids → splice ids (util.indexOf ids key) 1 [] = util.remove ids key.
Proof.
  intros Hin. unfold util.remove.
  destruct (Z.ltb_spec (-1) (util.indexOf ids key)) as [|Hle]; [done|].
  pose proof (indexOf_ge ids key).
  assert (util.indexOf ids key = -1) as Hn%indexOf_notin by lia. done.
Qed.
End PutAfter.

(** ** The invariant is kept *)

Section Invariant.
Implicit Types (s : RecordList.t) (key : string).

Lemma length_zero (l : list string) : (Z.of_nat (length l) =? 0) = true ↔ l = [].
Proof.
  destruct l; cbn; [done|]. split; [|done].
  intros H. apply Z.eqb_eq in H. lia.
Qed.

Lemma checked_load okey s :
  (loadComplete s = true → masterLoaded s = true ∧ initialKeysLeft s = []) →
  let s' := checked okey s in
  loadComplete s' = true ↔ masterLoaded s' = true ∧ initialKeysLeft s' = [].
Proof.
  intros Hs. unfold checked. destruct (loadComplete s) eqn:Hdone; cbn.
  - rewrite Hdone. split; [done | by intros].
  - match goal with |- context [if (_ =? 0) && masterLoaded ?x then _ else _] =>
      set (s1 := x) end.
    assert (loadComplete s1 = false) as H1.
    { subst s1. destruct okey as [k|]; [|done]. by destruct (truthy _). }
    destruct (_ && _) eqn:E; cbn.
    + apply andb_true_iff in E as [E1%length_zero E2]. done.
    + rewrite H1. split; [done|]. intros [E2 E1%length_zero].
      rewrite E1, E2 in E. done.
Qed.

Lemma checked_recs okey s : recs (checked okey s) = recs s.
Proof.
  unfold checked. destruct (loadComplete s); [done|].
  destruct okey as [k|]; cbn; [destruct (negb _)|];
    by destruct (_ && _).
Qed.

Lemma checked_snaps okey s : snaps (checked okey s) = snaps s.
Proof.
  unfold checked. destruct (loadComplete s); [done|].
  destruct okey as [k|]; cbn; [destruct (negb _)|];
    by destruct (_ && _).
Qed.

Lemma checked_recIds okey s : recIds (checked okey s) = recIds s.
Proof.
  unfold checked. destruct (loadComplete s); [done|].
  destruct okey as [k|]; cbn; [destruct (negb _)|];
    by destruct (_ && _).
Qed.

Lemma wf_empty : wf RecordList.empty.
Proof. split; cbn; [|done..]. split; [done | by intros [? _]]. Qed.

Lemma has_set {V} (o : JsObject.t V) k k' v :
  util.has (JsObject.set k v o) k' = true ↔ k' = k ∨ util.has o k' = true.
Proof.
  unfold util.has. rewrite !has_get. destruct (decide (k = k')) as [->|Hne].
  - rewrite get_set_eq. split; [by left | by eexists].
  - rewrite get_set_ne by done. split; [by right | by intros [?|?]].
Qed.

Lemma has_del {V} (o : JsObject.t V) k k' :
  util.has (JsObject.del k o) k' = true ↔ k' ≠ k ∧ util.has o k' = true.
Proof.
  unfold util.has. rewrite !has_get. destruct (decide (k = k')) as [->|Hne].
  - rewrite get_del_eq. split; [by intros [? ?] | by intros [? _]].
  - rewrite get_del_ne by done. split; [done | by intros [_ ?]].
Qed.

Lemma wf_add key prevChild s : wf s → wf (after (add key prevChild s)).
Proof.
  intros [Hl Hs Hi]. rewrite add_eq. cbn.
  destruct (loadComplete s) eqn:Hdone; split; cbn; try done.
  - by rewrite Hdone.
  - rewrite Hdone. split; [done|]. intros [_ E]. by destruct (initialKeysLeft s).
Qed.

Lemma wf_dropped key s : wf s → wf (dropped key s).
Proof.
  intros [Hl Hs Hi]. split; cbn; [done| |].
  - intros k [Hne Hk]%has_del. apply has_del. auto.
  - intros k [Hne Hk]%has_del. apply elem_of_remove_ne; auto.
Qed.

Lemma wf_remove key s : wf s → wf (after (remove key s)).
Proof.
  intros Hwf. rewrite remove_eq.
  destruct (JsObject.get (recs s) key); [|done]. by apply wf_dropped.
Qed.

Lemma wf_move key prevChild s : wf s → wf (after (move key prevChild s)).
Proof.
  intros [Hl Hs Hi]. rewrite move_eq.
  destruct (util.has (recs s) key) eqn:Hk; [|done].
  split; cbn; [done..|].
  intros k Hr. apply elem_of_put_after.
  rewrite splice_out_found by auto.
  destruct (decide (k = key)); [by left | right].
  apply elem_of_remove_ne; auto.
Qed.

Lemma wf_masterPathLoaded s : wf s → wf (after (masterPathLoaded s)).
Proof.
  intros [Hl Hs Hi]. rewrite masterPathLoaded_eq. cbn. split.
  - apply checked_load. cbn. intros H. apply Hl in H as [_ ?]. done.
  - by rewrite checked_recs, checked_snaps.
  - by rewrite checked_recs, checked_recIds.
Qed.

Lemma wf_valueUpdated key snap s : wf s → wf (after (_valueUpdated key snap s)).
Proof.
  intros [Hl Hs Hi]. rewrite valueUpdated_eq.
  destruct (loading s !! key) as [r|]; cbn.
  - split.
    + apply checked_load. cbn. by intros ?%Hl.
    + rewrite checked_recs, checked_snaps. cbn.
      intros k [->|Hk]%has_set; apply has_set; auto.
    + rewrite checked_recs, checked_recIds. cbn.
      intros k [->|Hk]%has_set; apply elem_of_put_after; auto.
  - split; cbn; [done| |done].
    intros k Hk. apply has_set. auto.
Qed.
End Invariant.

(** ** [_reset] and whole runs *)

Section Runs.
Implicit Types (s : RecordList.t) (key : string) (o : op) (ops : list op).

Lemma remove_outcome key s : outcome (remove key s) = Normal tt.
Proof. rewrite remove_eq. by destruct (JsObject.get (recs s) key). Qed.

(** What holds before a loop of [remove]s and is kept by each of them
    holds after it, and what holds of every effect of a [remove] holds of
    every effect of the loop. *)
Lemma each_rec_remove (P : RecordList.t → Prop) (Q : effect → Prop) ks s :
  (∀ k s0, P s0 → P (after (remove k s0)) ∧ Forall Q (trace (remove k s0))) →
  P s →
  let r := each_rec ks remove s in
  outcome r = Normal tt ∧ P (after r) ∧ Forall Q (trace r).
Proof.
  intros Hstep. revert s. induction ks as [|k ks IH]; intros s Hs;
    cbn [each_rec].
  - by repeat split.
  - step. rewrite preceded_nil.
    destruct (util.has (recs s) k).
    + destruct (Hstep k s Hs) as [HP HQ].
      pose proof (remove_outcome k s) as Hout.
      destruct (remove k s) as [c s1 tr1] eqn:E. cbn in *. subst c.
      rewrite (bind_run _ _ s tt s1 tr1) by done.
      destruct (IH s1 HP) as (H1 & H2 & H3).
      repeat split; [done..|]. cbn. apply Forall_app. done.
    + step. rewrite preceded_nil. by apply IH.
Qed.

Lemma reset_eq s :
  _reset s
  = mkResult (Normal tt) RecordList.empty
      (trace (each_rec (JsObject.keys (recs s)) remove s)).
Proof.
  unfold _reset. step. rewrite preceded_nil.
  destruct (each_rec_remove (λ _, True) (λ _, True)
              (JsObject.keys (recs s)) s) as (Hout & _);
    [intros; split; [done | by apply Forall_true] | done |].
  destruct (each_rec _ _ s) as [c s1 tr1] eqn:E. cbn in Hout. subst c.
  rewrite (bind_run _ _ s tt s1 tr1) by done.
  unfold preceded. cbn. by rewrite app_nil_r.
Qed.

Lemma step_outcome o s : outcome (step o s) = Normal tt.
Proof.
  destruct o as [key prevChild|key|key prevChild| | |key snap]; cbn [step].
  - by rewrite add_eq.
  - apply remove_outcome.
  - rewrite move_eq. by destruct (util.has _ _).
  - by rewrite masterPathLoaded_eq.
  - unfold unloaded. by rewrite reset_eq.
  - rewrite valueUpdated_eq. by destruct (loading s !! key).
Qed.

Lemma step_wf o s : wf s → wf (after (step o s)).
Proof.
  destruct o as [key prevChild|key|key prevChild| | |key snap]; cbn [step].
  - apply wf_add.
  - apply wf_remove.
  - apply wf_move.
  - apply wf_masterPathLoaded.
  - intros _. unfold unloaded. rewrite reset_eq. apply wf_empty.
  - apply wf_valueUpdated.
Qed.

Lemma run_cons o ops s :
  run (o :: ops) s = preceded (trace (step o s)) (run ops (after (step o s))).
Proof.
  cbn [run]. pose proof (step_outcome o s) as Hout.
  destruct (step o s) as [c s1 tr1] eqn:E. cbn in *. subst c.
  by rewrite (bind_run _ _ s tt s1 tr1).
Qed.

(** No run of operations ends in a thrown error. *)
Lemma run_outcome ops s : outcome (run ops s) = Normal tt.
Proof.
  revert s. induction ops as [|o ops IH]; intros s; [done|].
  rewrite run_cons. cbn. apply IH.
Qed.

Lemma run_wf ops s : wf s → wf (after (run ops s)).
Proof.
  revert s. induction ops as [|o ops IH]; intros s Hs; [done|].
  rewrite run_cons. cbn. by apply IH, step_wf.
Qed.

Lemma session_wf ops : wf (session ops).
Proof. apply run_wf, wf_empty. Qed.

End Runs.

(** ** Load completion and the aggregate [value] notification *)

Section LoadState.
Implicit Types (s : RecordList.t) (key : string) (o : op) (ops : list op).

Lemma value_trace_done s :
  loadComplete s = true →
  value_trace s = [Emit (Value (util.toArray (snaps s)))].
Proof. unfold value_trace. by intros ->. Qed.

Lemma value_trace_not_done s : loadComplete s = false → value_trace s = [].
Proof. unfold value_trace. by intros ->. Qed.

Lemma checked_done okey s : loadComplete s = true → checked okey s = s.
Proof. unfold checked. by intros ->. Qed.

(** A check that is given no key to cross off cannot complete the load of
    a list whose flag already agrees with its other two fields. *)
Lemma checked_falsy okey s :
  truthy okey = false →
  ¬ (masterLoaded s = true ∧ initialKeysLeft s = []) →
  loadComplete s = false →
  loadComplete (checked okey s) = false.
Proof.
  intros Hk Hn Hdone. unfold checked. rewrite Hdone.
  assert (match okey with
          | Some k =>
              if truthy okey
              then with_initialKeysLeft (λ l, util.remove l k) s else s
          | None => s
          end = s) as ->.
  { destruct okey; [|done]. by rewrite Hk. }
  destruct (_ && _) eqn:E; [|done].
  apply andb_true_iff in E as [E1%length_zero E2]. tauto.
Qed.

Lemma add_loadComplete key prevChild s :
  loadComplete (after (add key prevChild s)) = loadComplete s.
Proof. rewrite add_eq. cbn. by destruct (loadComplete s) eqn:E. Qed.

Lemma remove_loadComplete key s :
  loadComplete (after (remove key s)) = loadComplete s.
Proof. rewrite remove_eq. by destruct (JsObject.get (recs s) key). Qed.

Lemma move_loadComplete key prevChild s :
  loadComplete (after (move key prevChild s)) = loadComplete s.
Proof. rewrite move_eq. by destruct (util.has (recs s) key). Qed.

Lemma step_keeps_done o s :
  o ≠ Unloaded →
  loadComplete s = true → loadComplete (after (step o s)) = true.
Proof.
  intros Ho Hdone.
  destruct o as [key prevChild|key|key prevChild| | |key snap]; cbn [step].
  - by rewrite add_loadComplete.
  - by rewrite remove_loadComplete.
  - by rewrite move_loadComplete.
  - rewrite masterPathLoaded_eq. cbn. by rewrite checked_done.
  - done.
  - rewrite valueUpdated_eq. destruct (loading s !! key); cbn; [|done].
    by rewrite checked_done.
Qed.
End LoadState.

Section Completion.
Implicit Types (s : RecordList.t) (key : string).

(** [masterPathLoaded] before load completion: it completes the load
    exactly if no key is left, and then emits the one [value]. *)
Lemma masterPathLoaded_completes s :
  loadComplete s = false →
  let r := masterPathLoaded s in
  (loadComplete (after r) = true ↔ initialKeysLeft s = [])
  ∧ trace r
    = if loadComplete (after r)
      then [Emit (Value (util.toArray (snaps s)))] else [].
Proof.
  intros Hdone. cbv zeta. rewrite masterPathLoaded_eq. cbv zeta.
  cbn [after trace]. rewrite Hdone. cbn [negb andb].
  unfold checked, value_trace. cbn. rewrite Hdone, andb_true_r.
  destruct (Z.of_nat (length (initialKeysLeft s)) =? 0) eqn:E; cbn.
  - apply length_zero in E. by rewrite E.
  - rewrite Hdone. split; [|done]. split; [done|].
    intros Hl. rewrite Hl in E. discriminate E.
Qed.

(** The first value of a pending key before load completion: it completes
    the load exactly if the master list has loaded and no other key is
    left, and it emits [child_added], then [value] if it completed the
    load. *)
Lemma value_completes key snap l s :
  loadComplete s = false → loading s !! key = Some l → key ≠ EmptyString →
  let r := _valueUpdated key snap s in
  (loadComplete (after r) = true
   ↔ masterLoaded s = true ∧ util.remove (initialKeysLeft s) key = [])
  ∧ trace r
    = Emit (ChildAdded key (JSnap snap) (prev_child (recIds (after r)) key))
      :: (if loadComplete (after r)
          then [Emit (Value (util.toArray (snaps (after r))))] else []).
Proof.
  intros Hdone Hl Hne. cbv zeta. rewrite valueUpdated_eq, Hl. cbv zeta.
  cbn [after trace]. rewrite (bool_decide_eq_false_2 _ Hne), andb_false_r.
  rewrite app_nil_l.
  set (s' := checked (Some key) (promoted key snap l s)).
  assert (snap_of s' key = JSnap snap) as ->.
  { unfold snap_of. subst s'. rewrite checked_snaps. unfold promoted. cbn.
    by rewrite get_set_eq. }
  split; [|done].
  subst s'. unfold checked, promoted. cbn. rewrite Hdone.
  rewrite (bool_decide_eq_false_2 _ Hne). cbn.
  destruct (Z.of_nat (length (util.remove (initialKeysLeft s) key)) =? 0) eqn:E;
    cbn.
  - apply length_zero in E. destruct (masterLoaded s); cbn.
    + done.
    + rewrite Hdone. split; [done | by intros [? _]].
  - rewrite Hdone. split; [done|]. intros [_ Hl'].
    rewrite Hl' in E. discriminate E.
Qed.
End Completion.

(** C1: at every point of a session [loadComplete] is set exactly when
    [masterLoaded] is set and [initialKeysLeft] is empty.  The operation
    that sets it is [masterPathLoaded] or a value arriving for a pending
    key, and it emits exactly one [value]: alone after [masterPathLoaded],
    right after the key's [child_added] otherwise.  And the flag is set
    when it is due: [masterPathLoaded] sets it exactly if no key is left,
    and the first value of a pending key sets it exactly if the master
    list has loaded and the key was the only one left; before that the
    value emits [child_added] alone. *)
Theorem load_complete_emits_one_value (ops : list op) (o : op) :
  let s := session ops in
  let r := step o s in
  (loadComplete (after r) = true
   ↔ masterLoaded (after r) = true ∧ initialKeysLeft (after r) = [])
  ∧ (loadComplete s = false → loadComplete (after r) = true →
     count_values (trace r) = 1%nat
     ∧ ((o = MasterPathLoaded
         ∧ trace r = [Emit (Value (util.toArray (snaps (after r))))])
        ∨ (∃ key snap,
             o = ValueUpdated key snap
             ∧ is_Some (loading s !! key)
             ∧ trace r
               = [Emit (ChildAdded key (JSnap snap)
                          (prev_child (recIds (after r)) key));
                  Emit (Value (util.toArray (snaps (after r))))])))
  ∧ (loadComplete s = false → o = MasterPathLoaded →
     (loadComplete (after r) = true ↔ initialKeysLeft s = [])
     ∧ trace r
       = if loadComplete (after r)
         then [Emit (Value (util.toArray (snaps s)))] else [])
  ∧ (∀ key snap,
       loadComplete s = false → o = ValueUpdated key snap →
       is_Some (loading s !! key) → key ≠ EmptyString →
       (loadComplete (after r) = true
        ↔ masterLoaded s = true ∧ util.remove (initialKeysLeft s) key = [])
       ∧ trace r
         = Emit (ChildAdded key (JSnap snap)
                   (prev_child (recIds (after r)) key))
           :: (if loadComplete (after r)
               then [Emit (Value (util.toArray (snaps (after r))))]
               else [])).
Proof.
  intros s r. pose proof (session_wf ops) as Hwf. fold s in Hwf.
  split; [apply (wf_load _ (step_wf o s Hwf))|].
  split; [|split].
  2:{ intros Hfrom ->. by apply masterPathLoaded_completes. }
  2:{ intros key snap Hfrom -> [l Hl] Hne. by eapply value_completes. }
  subst r. intros Hfrom Hto.
  destruct o as [key prevChild|key|key prevChild| | |key snap]; cbn [step] in *.
  - rewrite add_loadComplete in Hto. congruence.
  - rewrite remove_loadComplete in Hto. congruence.
  - rewrite move_loadComplete in Hto. congruence.
  - rewrite masterPathLoaded_eq in *. cbn in *. rewrite Hfrom, Hto. cbn.
    rewrite value_trace_done by done. split; [done|]. by left.
  - unfold unloaded in Hto. by rewrite reset_eq in Hto.
  - rewrite valueUpdated_eq in *.
    destruct (loading s !! key) as [l|] eqn:Hl; cbn in *; [|congruence].
    rewrite Hfrom, Hto. cbn.
    destruct (decide (key = EmptyString)) as [->|Hne].
    + rewrite checked_falsy in Hto; [done..| |done]. cbn.
      intros H. apply (wf_load _ Hwf) in H. congruence.
    + rewrite bool_decide_eq_false_2 by done. cbn.
      rewrite value_trace_done by done. split; [done|]. right.
      exists key, snap. split; [done|]. split; [by eexists|].
      unfold snap_of. rewrite checked_snaps. unfold promoted. cbn.
      by rewrite get_set_eq.
Qed.

(** C1 at work, on scenario 2 of section 8: A is added and the master
    list loads before A's value; the load is not complete then, and A's
    value completes it and emits [child_added] followed by the one
    [value]. *)
Lemma load_complete_emits_one_value_witness :
  let s := session [Add "A" None; MasterPathLoaded] in
  let r := step (ValueUpdated "A" (mkSnap "A" 1)) s in
  loadComplete s = false
  ∧ loadComplete (after r) = true
  ∧ trace r
    = [Emit (ChildAdded "A" (JSnap (mkSnap "A" 1)) None);
       Emit (Value [mkSnap "A" 1])].
Proof.
  intros s r.
  destruct (load_complete_emits_one_value
              [Add "A" None; MasterPathLoaded]
              (ValueUpdated "A" (mkSnap "A" 1)))
    as (_ & _ & _ & Hvalue).
  destruct (Hvalue "A" (mkSnap "A" 1)) as [Hiff Htrace].
  - reflexivity.
  - reflexivity.
  - vm_compute. eexists. reflexivity.
  - discriminate.
  - split; [reflexivity|]. split.
    + apply Hiff. split; vm_compute; reflexivity.
    + etrans; [apply Htrace|]. vm_compute. reflexivity.
Defined.

Section Suppression.
Implicit Types (s : RecordList.t) (key : string) (o : op) (ops : list op).

Lemma count_values_app tr1 tr2 :
  count_values (tr1 ++ tr2) = (count_values tr1 + count_values tr2)%nat.
Proof. unfold count_values. by rewrite filter_app, length_app. Qed.

Lemma count_values_zero tr :
  count_values tr = 0%nat ↔ Forall (λ e, is_value e = false) tr.
Proof.
  unfold count_values. induction tr as [|e tr IH]; [done|].
  rewrite filter_cons, Forall_cons. destruct (is_value e); cbn.
  - split; [done | by intros [? _]].
  - rewrite IH. split; [done | by intros [_ ?]].
Qed.

Lemma remove_no_value key s :
  loadComplete s = false → count_values (trace (remove key s)) = 0%nat.
Proof.
  intros Hs. rewrite remove_eq. destruct (JsObject.get (recs s) key); [|done].
  cbn. by rewrite value_trace_not_done.
Qed.

(** A step that starts and ends before load completion emits no [value]. *)
Lemma step_no_value o s :
  loadComplete s = false → loadComplete (after (step o s)) = false →
  count_values (trace (step o s)) = 0%nat.
Proof.
  intros Hs Hs'.
  destruct o as [key prevChild|key|key prevChild| | |key snap]; cbn [step] in *.
  - by rewrite add_eq.
  - by apply remove_no_value.
  - rewrite move_eq in *. destruct (util.has (recs s) key); [|done].
    cbn in *. by rewrite value_trace_not_done.
  - rewrite masterPathLoaded_eq in *. cbn in *.
    by rewrite Hs', andb_false_r.
  - unfold unloaded. rewrite reset_eq. cbn. apply count_values_zero.
    apply (each_rec_remove (λ s0, loadComplete s0 = false)); [|done].
    intros k s0 H0. split; [by rewrite remove_loadComplete|].
    by apply count_values_zero, remove_no_value.
  - rewrite valueUpdated_eq in *. destruct (loading s !! key); cbn in *.
    + rewrite Hs'. rewrite andb_false_r. cbn.
      by rewrite value_trace_not_done.
    + destruct (util.has (recs s) key); [|done]. cbn.
      by rewrite value_trace_not_done.
Qed.
End Suppression.

(** C2: while [loadComplete] is false [_notifyValue] does nothing, and a
    run during which the flag is false at every point emits no [value],
    whatever the operations are. *)
Theorem no_value_before_load_complete (ops : list op) (s : RecordList.t) :
  loadComplete s = false →
  Forall (λ st, loadComplete st = false) (states_along ops s) →
  _notifyValue s = mkResult (Normal tt) s []
  ∧ count_values (trace (run ops s)) = 0%nat.
Proof.
  intros Hs Hall. split.
  { rewrite notifyValue_eq. by rewrite value_trace_not_done. }
  revert s Hs Hall. induction ops as [|o ops IH]; intros s Hs Hall; [done|].
  cbn [states_along] in Hall. apply Forall_cons in Hall as [Hs' Hall].
  rewrite run_cons. unfold preceded. cbn [trace].
  rewrite count_values_app, step_no_value by done. by apply IH.
Qed.

(** C2 at work: two children added and one value delivered before the
    master list has loaded. *)
Lemma no_value_before_load_complete_witness :
  count_values
    (trace (run [Add "A" None; Add "B" (Some "A");
                 ValueUpdated "A" (mkSnap "A" 1)] RecordList.empty)) = 0%nat.
Proof.
  apply (no_value_before_load_complete
           [Add "A" None; Add "B" (Some "A"); ValueUpdated "A" (mkSnap "A" 1)]
           RecordList.empty).
  - reflexivity.
  - repeat constructor.
Defined.

Section Monotone.
Implicit Types (s : RecordList.t) (o : op) (ops : list op).

Lemma rises_cons b b' l :
  rises (b :: b' :: l)
  = ((if negb b && b' then 1 else 0) + rises (b' :: l))%nat.
Proof. by destruct b, b'. Qed.

Lemma rises_all_true l : Forall (λ b, b = true) l → rises l = 0%nat.
Proof.
  induction 1 as [|b l -> _ IH]; [done|]. destruct l as [|b' l]; [done|].
  by rewrite rises_cons.
Qed.

Lemma run_keeps_done ops s :
  Forall (λ o, o ≠ Unloaded) ops → loadComplete s = true →
  Forall (λ st, loadComplete st = true) (states_along ops s).
Proof.
  intros Hops. revert s. induction Hops as [|o ops Ho _ IH]; intros s Hs.
  - constructor.
  - cbn [states_along]. constructor; [by apply step_keeps_done|].
    by apply IH, step_keeps_done.
Qed.
End Monotone.

(** C4: over any run without [unloaded], [loadComplete] rises from false
    to true at most once and, once true, is true after every later
    operation; [unloaded] puts it back to false. *)
Theorem load_complete_monotone (ops : list op) (s : RecordList.t) :
  Forall (λ o, o ≠ Unloaded) ops →
  (rises (loadComplete <$> s :: states_along ops s) ≤ 1)%nat
  ∧ (loadComplete s = true →
     Forall (λ st, loadComplete st = true) (states_along ops s))
  ∧ loadComplete (after (step Unloaded (after (run ops s)))) = false.
Proof.
  intros Hops. split; [|split].
  - revert s. induction Hops as [|o ops Ho Hops IH]; intros s.
    { cbn. destruct (loadComplete s); cbn; lia. }
    cbn [states_along]. rewrite !fmap_cons, rises_cons.
    destruct (loadComplete (after (step o s))) eqn:Hs'.
    + rewrite rises_all_true; [destruct (negb _); cbn; lia|].
      constructor; [done|]. apply Forall_fmap. by apply run_keeps_done.
    + rewrite andb_false_r. cbn. specialize (IH (after (step o s))).
      by rewrite fmap_cons, Hs' in IH.
  - by apply run_keeps_done.
  - cbn [step]. unfold unloaded. by rewrite reset_eq.
Qed.

(** C4 at work: a session that completes its load and goes on. *)
Lemma load_complete_monotone_witness :
  (rises (loadComplete <$> RecordList.empty
            :: states_along [Add "A" None; MasterPathLoaded;
                             ValueUpdated "A" (mkSnap "A" 1); Add "B" None;
                             Remove "A"] RecordList.empty) ≤ 1)%nat.
Proof.
  apply (load_complete_monotone
           [Add "A" None; MasterPathLoaded; ValueUpdated "A" (mkSnap "A" 1);
            Add "B" None; Remove "A"] RecordList.empty).
  repeat constructor; discriminate.
Defined.

(** ** Insertion after a sibling *)

(** C7: [add key S] records [S] with the pending record, and when the
    first value arrives the key goes into [recIds] at the first position
    if [S] is null, right after [S] where [S] then is, and at the end if
    [S] is not in [recIds] then. *)
Theorem promotion_inserts_after_sibling
    (key : string) (S : option string) (snap : Snapshot)
    (r : Loading) (s0 s : RecordList.t) :
  loading s !! key = Some r → prev r = S →
  loading (after (add key S s0)) !! key = Some (mkLoading (Child key) S)
  ∧ let s' := after (_valueUpdated key snap s) in
    match S with
    | None => recIds s' = key :: recIds s
    | Some p =>
        (p ∉ recIds s → recIds s' = recIds s ++ [key])
        ∧ (∀ l1 l2, recIds s = l1 ++ p :: l2 → p ∉ l1 →
           recIds s' = l1 ++ p :: key :: l2)
    end.
Proof.
  intros Hl HS. split.
  { rewrite add_eq. cbn. destruct (loadComplete s0); cbn; apply lookup_insert_eq. }
  cbn zeta. rewrite valueUpdated_eq, Hl. cbn. rewrite checked_recIds.
  unfold promoted. cbn. rewrite HS. destruct S as [p|].
  - split.
    + apply put_after_absent.
    + intros l1 l2 -> Hn. by apply put_after_present.
  - apply put_after_first.
Qed.

(** C7 at work: C was added after A and its value arrives while [recIds]
    is [A; B]. *)
Lemma promotion_inserts_after_sibling_witness :
  let s := session [Add "A" None; Add "B" (Some "A"); Add "C" (Some "A");
                    ValueUpdated "A" (mkSnap "A" 1);
                    ValueUpdated "B" (mkSnap "B" 2)] in
  recIds s = ["A"; "B"]
  ∧ recIds (after (_valueUpdated "C" (mkSnap "C" 3) s)) = ["A"; "C"; "B"].
Proof.
  intros s. split; [reflexivity|].
  destruct (promotion_inserts_after_sibling "C" (Some "A") (mkSnap "C" 3)
              (mkLoading (Child "C") (Some "A")) RecordList.empty s
              eq_refl eq_refl) as [_ [_ Hafter]].
  apply (Hafter [] ["B"]); [reflexivity | apply not_elem_of_nil].
Defined.

(** ** The previous child *)

Section PrevChild.
Implicit Types (l : list string) (key p : string).

Lemma at_index_app l1 l2 p : at_index (l1 ++ p :: l2) (Z.of_nat (length l1)) = Some p.
Proof.
  unfold at_index. destruct (Z.ltb_spec (Z.of_nat (length l1)) 0); [lia|].
  rewrite Nat2Z.id. by rewrite list_lookup_middle.
Qed.

Lemma at_index_last l : at_index l (Z.of_nat (length l) - 1) = last l.
Proof.
  destruct l as [|x l _] using rev_ind; [done|].
  rewrite last_snoc, length_app. cbn.
  replace (Z.of_nat (length l + 1) - 1) with (Z.of_nat (length l)) by lia.
  apply at_index_app.
Qed.

Lemma prev_child_first key l : prev_child (key :: l) key = None.
Proof. unfold prev_child. cbn. by rewrite decide_True. Qed.

Lemma prev_child_after key p l1 l2 :
  key ∉ l1 → key ≠ p → prev_child (l1 ++ p :: key :: l2) key = Some p.
Proof.
  intros Hn Hne. unfold prev_child.
  replace (l1 ++ p :: key :: l2) with ((l1 ++ [p]) ++ key :: l2)
    by by rewrite <- app_assoc.
  rewrite indexOf_app
    by (rewrite elem_of_app, list_elem_of_singleton; tauto).
  rewrite !length_app. cbn.
  destruct (Z.eqb_spec (Z.of_nat ((length l1 + 1) + S (length l2))) 0); [lia|].
  destruct (Z.eqb_spec (Z.of_nat (length l1 + 1)) (-1)); [lia|].
  destruct (Z.eqb_spec (Z.of_nat (length l1 + 1)) 0); [lia|].
  replace (Z.of_nat (length l1 + 1) - 1) with (Z.of_nat (length l1)) by lia.
  rewrite <- app_assoc. apply at_index_app.
Qed.

Lemma prev_child_absent key l : key ∉ l → prev_child l key = last l.
Proof.
  intros Hn%indexOf_notin. unfold prev_child. rewrite Hn. cbn.
  destruct (Z.eqb_spec (Z.of_nat (length l)) 0) as [E|E].
  - by destruct l.
  - apply at_index_last.
Qed.
End PrevChild.

(** C8, as stated, fails: for a key that is not in [recIds],
    [_getPrevChild] answers with the last key of [recIds], not with
    null. *)
Lemma getPrevChild_absent_counterexample :
  ¬ (∀ (key : string) (s : RecordList.t),
       key ∉ recIds s → outcome (_getPrevChild key s) = Normal None).
Proof.
  intros H.
  assert ("Z" ∉ recIds (session [Add "A" None; ValueUpdated "A" (mkSnap "A" 1)]))
    as Hn.
  { intros [?|[]%elem_of_nil]%elem_of_cons. discriminate. }
  apply H in Hn. vm_compute in Hn. discriminate Hn.
Qed.

(** C8, amended: [_getPrevChild] changes nothing and emits nothing; it
    returns the key right before the first occurrence of [key] in
    [recIds], null when [key] comes first, and when [key] is not in
    [recIds] the last key of [recIds] (null only if [recIds] is empty). *)
Theorem getPrevChild_cases (key : string) (s : RecordList.t) :
  after (_getPrevChild key s) = s
  ∧ trace (_getPrevChild key s) = []
  ∧ (∀ l1 p l2, recIds s = l1 ++ p :: key :: l2 → key ∉ l1 → key ≠ p →
     outcome (_getPrevChild key s) = Normal (Some p))
  ∧ (∀ l, recIds s = key :: l → outcome (_getPrevChild key s) = Normal None)
  ∧ (key ∉ recIds s →
     outcome (_getPrevChild key s) = Normal (last (recIds s))).
Proof.
  rewrite getPrevChild_eq. cbn. repeat split.
  - intros l1 p l2 -> Hn Hne. by rewrite prev_child_after.
  - intros l ->. by rewrite prev_child_first.
  - intros Hn. by rewrite prev_child_absent.
Qed.

(** C8 amended, at work: B comes right after A. *)
Lemma getPrevChild_cases_witness :
  outcome
    (_getPrevChild "B"
       (session [Add "A" None; Add "B" (Some "A");
                 ValueUpdated "A" (mkSnap "A" 1);
                 ValueUpdated "B" (mkSnap "B" 2)]))
  = Normal (Some "A").
Proof.
  apply (getPrevChild_cases "B" _) with (l1 := []) (l2 := []).
  - reflexivity.
  - apply not_elem_of_nil.
  - discriminate.
Defined.

(** ** Moving a record *)

(** C9, as stated, fails: on a loaded list [move] emits [child_moved] and
    then the aggregate [value], because [_notify] ends with [_notifyValue]
    whatever the event is. *)
Lemma move_emits_value_counterexample :
  let s := session loaded_ABC in
  recIds s = ["A"; "B"; "C"]
  ∧ recIds (after (move "C" (Some "A") s)) = ["A"; "C"; "B"]
  ∧ trace (move "C" (Some "A") s)
    = [Emit (ChildMoved "C" (JSnap (mkSnap "C" 3)) (Some "A"));
       Emit (Value [mkSnap "A" 1; mkSnap "B" 2; mkSnap "C" 3])]
  ∧ count_values (trace (move "C" (Some "A") s)) ≠ 0%nat.
Proof. cbv zeta. split_and!; [reflexivity..|]. by vm_compute. Qed.

(** C9, amended: [move] of an active key takes the key out of [recIds],
    puts it back after [afterKey] (first if null, last if [afterKey] is
    not there), touches nothing else, and emits one [child_moved] with the
    key's snapshot and new previous key, followed by the aggregate [value]
    exactly when the load is complete; [move] of a key that is not active
    changes nothing and emits nothing. *)
Theorem move_reinserts_and_notifies
    (ops : list op) (key : string) (afterKey : option string) :
  let s := session ops in
  let r := move key afterKey s in
  (util.has (recs s) key = true →
     recIds (after r) = put_after key afterKey (util.remove (recIds s) key)
     ∧ (afterKey = None → recIds (after r) = key :: util.remove (recIds s) key)
     ∧ (∀ p l1 l2, afterKey = Some p →
          util.remove (recIds s) key = l1 ++ p :: l2 → p ∉ l1 →
          recIds (after r) = l1 ++ p :: key :: l2)
     ∧ (∀ p, afterKey = Some p → p ∉ util.remove (recIds s) key →
          recIds (after r) = util.remove (recIds s) key ++ [key])
     ∧ after r = with_recIds (λ _, recIds (after r)) s
     ∧ trace r
       = Emit (ChildMoved key (snap_of s key)
                 (prev_child (recIds (after r)) key))
         :: (if loadComplete s
             then [Emit (Value (util.toArray (snaps s)))] else []))
  ∧ (util.has (recs s) key = false → r = mkResult (Normal tt) s []).
Proof.
  intros s r. subst r. rewrite move_eq. split; intros Hk; rewrite Hk; [|done].
  pose proof (wf_ids _ (session_wf ops) key Hk) as Hin. fold s in Hin.
  cbn. rewrite splice_out_found by done. split_and!; try done.
  - intros ->. apply put_after_first.
  - intros p l1 l2 -> -> Hn. by apply put_after_present.
  - intros p -> Hn. by apply put_after_absent.
  - unfold with_recIds. by rewrite splice_out_found.
Qed.

(** C9 amended, at work: before the master list has loaded, moving B to
    the front emits [child_moved] alone. *)
Lemma move_reinserts_and_notifies_witness :
  let s := session [Add "A" None; Add "B" (Some "A");
                    ValueUpdated "A" (mkSnap "A" 1);
                    ValueUpdated "B" (mkSnap "B" 2)] in
  recIds (after (move "B" None s)) = ["B"; "A"]
  ∧ trace (move "B" None s)
    = [Emit (ChildMoved "B" (JSnap (mkSnap "B" 2)) None)].
Proof.
  intros s.
  destruct (move_reinserts_and_notifies
              [Add "A" None; Add "B" (Some "A");
               ValueUpdated "A" (mkSnap "A" 1);
               ValueUpdated "B" (mkSnap "B" 2)] "B" None) as [Hactive _].
  destruct (Hactive eq_refl) as (_ & Hfirst & _ & _ & _ & Htrace).
  split.
  - etrans; [apply (Hfirst eq_refl) | reflexivity].
  - etrans; [apply Htrace | reflexivity].
Defined.

(** ** The payload of the aggregate [value] notification *)


Section Payload.
Implicit Types (s : RecordList.t) (key : string) (o : op) (p : list Snapshot).

Lemma elem_of_value_trace p s :
  Emit (Value p) ∈ value_trace s ↔ dumps p s.
Proof.
  unfold value_trace, dumps. destruct (loadComplete s).
  - rewrite list_elem_of_singleton. split.
    + by intros [= ->].
    + by intros [_ ->].
  - split; [by intros ?%elem_of_nil | by intros [? _]].
Qed.

Lemma remove_value key s p :
  Emit (Value p) ∈ trace (remove key s) → dumps p (after (remove key s)).
Proof.
  rewrite remove_eq. destruct (JsObject.get (recs s) key); cbn.
  - rewrite !elem_of_cons. intros [?|[?|H]]; [done..|].
    by apply elem_of_value_trace.
  - by intros ?%elem_of_nil.
Qed.

Lemma step_value o s p :
  o ≠ Unloaded →
  Emit (Value p) ∈ trace (step o s) → dumps p (after (step o s)).
Proof.
  intros Ho.
  destruct o as [key prevChild|key|key prevChild| | |key snap]; cbn [step].
  - rewrite add_eq. cbn. rewrite list_elem_of_singleton. done.
  - apply remove_value.
  - rewrite move_eq. destruct (util.has (recs s) key); cbn.
    + rewrite elem_of_cons. intros [?|H]; [done|].
      by apply elem_of_value_trace.
    + by intros ?%elem_of_nil.
  - rewrite masterPathLoaded_eq. cbn. destruct (_ && _).
    + apply elem_of_value_trace.
    + by intros ?%elem_of_nil.
  - done.
  - rewrite valueUpdated_eq. destruct (loading s !! key); cbn.
    + rewrite elem_of_app, elem_of_cons. intros [H|[?|H]]; [|done|].
      * destruct (_ && _); [by apply elem_of_value_trace|].
        by apply elem_of_nil in H.
      * by apply elem_of_value_trace.
    + destruct (util.has (recs s) key).
      * rewrite elem_of_cons. intros [?|H]; [done|].
        by apply elem_of_value_trace.
      * by intros ?%elem_of_nil.
Qed.

End Payload.

(** ** Removal of a pending record *)

(** C5, on the code: [remove] of a key that is still pending leaves the
    list as it is and detaches nothing, so the value that arrives later
    promotes the key: [child_added] is emitted for B and B enters
    [recIds]. *)
Theorem removed_pending_key_is_promoted :
  let s := session [Add "A" None; ValueUpdated "A" (mkSnap "A" 1);
                    Add "B" (Some "A")] in
  let r := _valueUpdated "B" (mkSnap "B" 2) (after (remove "B" s)) in
  remove "B" s = mkResult (Normal tt) s []
  ∧ trace r = [Emit (ChildAdded "B" (JSnap (mkSnap "B" 2)) (Some "A"))]
  ∧ recIds (after r) = ["A"; "B"].
Proof. cbv zeta. split_and!; reflexivity. Qed.

(** ** A value for a key that is not tracked *)

(** C6, on the code: [_valueUpdated] stores the snapshot before it looks
    whether the key is tracked, so an orphan emits nothing but stays in
    [snaps], and every later [value] carries it. *)
Theorem orphan_value_is_stored :
  let s := session [MasterPathLoaded; Add "A" None] in
  let r := _valueUpdated "Z" (mkSnap "Z" 26) s in
  trace r = []
  ∧ snaps s = []
  ∧ snaps (after r) = [("Z", mkSnap "Z" 26)]
  ∧ trace (_valueUpdated "A" (mkSnap "A" 1) (after r))
    = [Emit (ChildAdded "A" (JSnap (mkSnap "A" 1)) None);
       Emit (Value [mkSnap "Z" 26; mkSnap "A" 1])].
Proof. cbv zeta. split_and!; reflexivity. Qed.

(** ** Release of the value watches *)

Section Watches.
Implicit Types (s : RecordList.t) (o : op) (ops : list op).

Lemma value_trace_shape s : Forall watch_shape (value_trace s).
Proof. unfold value_trace. destruct (loadComplete s); by repeat constructor. Qed.

Lemma remove_shape key s : Forall watch_shape (trace (remove key s)).
Proof.
  rewrite remove_eq. destruct (JsObject.get (recs s) key); cbn; [|done].
  repeat (constructor; [done|]). apply value_trace_shape.
Qed.

Lemma step_shape o s : Forall watch_shape (trace (step o s)).
Proof.
  destruct o as [key prevChild|key|key prevChild| | |key snap]; cbn [step].
  - rewrite add_eq. by repeat constructor.
  - apply remove_shape.
  - rewrite move_eq. destruct (util.has (recs s) key); cbn; [|done].
    constructor; [done|]. apply value_trace_shape.
  - rewrite masterPathLoaded_eq. cbn.
    destruct (_ && _); [apply value_trace_shape | done].
  - unfold unloaded. rewrite reset_eq. cbn.
    apply (each_rec_remove (λ _, True)); [|done].
    intros k s0 _. split; [done | apply remove_shape].
  - rewrite valueUpdated_eq. destruct (loading s !! key); cbn.
    + apply Forall_app. split.
      * destruct (_ && _); [apply value_trace_shape | done].
      * constructor; [done|]. apply value_trace_shape.
    + destruct (util.has (recs s) key); [|done].
      constructor; [done|]. apply value_trace_shape.
Qed.

(** In every run, [watch] is given a function bound by [util.bind] and
    [unwatch] the method itself. *)
Lemma run_shape ops s : Forall watch_shape (trace (run ops s)).
Proof.
  revert s. induction ops as [|o ops IH]; intros s; [done|].
  rewrite run_cons. cbn. apply Forall_app. split; [apply step_shape | apply IH].
Qed.
End Watches.

(** C10, on the code: [unwatch] receives [this._valueUpdated], not the
    bound function [add] gave to [watch]; and a record that is still
    pending is not unwatched at all, neither by [remove] nor by [stop]. *)
Theorem watch_is_not_released :
  trace (run [Add "A" None; ValueUpdated "A" (mkSnap "A" 1); Remove "A"]
           RecordList.empty)
  = [Watch (Child "A") (BoundValueUpdated "A");
     Emit (ChildAdded "A" (JSnap (mkSnap "A" 1)) None);
     Unwatch (Child "A") ValueUpdatedMethod;
     Emit (ChildRemoved "A" (JSnap (mkSnap "A" 1)))]
  ∧ trace (run [Add "A" None; Remove "A"] RecordList.empty)
    = [Watch (Child "A") (BoundValueUpdated "A")]
  ∧ trace ((RecordSetEventManager.start >>>
            RecordSetEventManager._add (mkSnap "A" 1) None >>>
            RecordSetEventManager.stop) RecordSetEventManager.new)
    = [MasterOn "child_added"; MasterOn "child_removed";
       MasterOn "child_moved"; MasterOnce "value";
       Watch (Child "A") (BoundValueUpdated "A");
       MasterOff "child_added"; MasterOff "child_removed";
       MasterOff "child_moved"].
Proof. split_and!; reflexivity. Qed.

(** * Further properties of the code *)

(** ** Errors *)

(** X1: [_notify] called with an event name other than the four it knows
    (the name [value] included) throws "Invalid event type ... for key
    ...": no handler is applied, [_notifyValue] does not run and the list
    is as before. *)
Theorem notify_unknown_event_throws
    (event key : string) (oldSnap : jsval) (s : RecordList.t) :
  event ∉ ["child_added"; "child_moved"; "child_changed"; "child_removed"] →
  _notify event key oldSnap s
  = mkResult
      (Thrown ("Invalid event type " +:+ event +:+ " for key " +:+ key)) s [].
Proof.
  intros Hev. repeat (apply not_elem_of_cons in Hev as [? Hev]).
  unfold _notify. pick_case. reflexivity.
Qed.

Lemma notify_unknown_event_throws_witness :
  _notify "value" "A" JUndefined RecordList.empty
  = mkResult (Thrown "Invalid event type value for key A") RecordList.empty [].
Proof.
  apply (notify_unknown_event_throws "value" "A" JUndefined RecordList.empty).
  intros H. repeat (apply elem_of_cons in H as [H|H]; [discriminate H|]).
  by apply elem_of_nil in H.
Defined.

(** X2: no sequence of [add], [remove], [move], [masterPathLoaded],
    [unloaded] and value arrivals, from any list, ends in the error of
    [_notify]: every call of [_notify] in the file passes one of its four
    event names. *)
Theorem no_run_throws (ops : list op) (s : RecordList.t) :
  outcome (run ops s) = Normal tt.
Proof.
  revert s. induction ops as [|o ops IH]; intros s; [done|].
  rewrite run_cons. cbn. apply IH.
Qed.

(** ** Calling a method twice *)

Section Twice.
Implicit Types (s : RecordList.t) (key : string).

Lemma get_dropped key s : JsObject.get (recs (dropped key s)) key = None.
Proof. unfold dropped. cbn. apply get_del_eq. Qed.

Lemma with_masterLoaded_id s :
  masterLoaded s = true → with_masterLoaded true s = s.
Proof. destruct s. cbn. by intros ->. Qed.

Lemma checked_None_left s :
  masterLoaded s = true →
  let s1 := checked None s in
  masterLoaded s1 = true
  ∧ (loadComplete s1 = false → initialKeysLeft s1 ≠ [] ∧ s1 = s).
Proof.
  intros Hm. unfold checked. destruct (loadComplete s) eqn:Hdone; cbn.
  - split; [done|]. congruence.
  - rewrite Hm, andb_true_r.
    destruct (Z.of_nat (length (initialKeysLeft s)) =? 0) eqn:E; cbn.
    + split; [done|]. discriminate.
    + split; [done|]. intros _. split; [|done].
      intros Hl. rewrite Hl in E. discriminate.
Qed.
End Twice.

(** X3: a second [remove] of the same key right after the first changes
    nothing and emits nothing, whatever the key and the list. *)
Theorem remove_twice (key : string) (s : RecordList.t) :
  remove key (after (remove key s))
  = mkResult (Normal tt) (after (remove key s)) [].
Proof.
  rewrite (remove_eq key (after (remove key s))).
  rewrite (remove_eq key s).
  destruct (JsObject.get (recs s) key) eqn:E; cbn.
  - by rewrite get_dropped.
  - by rewrite E.
Qed.

(** X4: a second [masterPathLoaded] right after the first changes nothing
    and emits nothing: the aggregate [value] of load completion is not
    repeated. *)
Theorem masterPathLoaded_twice (s : RecordList.t) :
  masterPathLoaded (after (masterPathLoaded s))
  = mkResult (Normal tt) (after (masterPathLoaded s)) [].
Proof.
  rewrite (masterPathLoaded_eq s). cbv zeta. cbn [after].
  destruct (checked_None_left (with_masterLoaded true s) eq_refl) as [Hm Hleft].
  set (s1 := checked None (with_masterLoaded true s)) in *.
  rewrite masterPathLoaded_eq. cbv zeta. rewrite with_masterLoaded_id by done.
  destruct (loadComplete s1) eqn:Hdone.
  - by rewrite checked_done.
  - destruct (Hleft eq_refl) as [Hne _].
    assert (checked None s1 = s1) as ->.
    { unfold checked. rewrite Hdone.
      destruct (Z.eqb_spec (Z.of_nat (length (initialKeysLeft s1))) 0) as [E|E];
        [|done].
      by destruct (initialKeysLeft s1). }
    by rewrite Hdone.
Qed.

(** ** A value for an active record, and after its removal *)

(** X5: a value for a record that is active and not pending stores the
    snapshot in place of the old one, keeps the key order of [snaps] and
    all other fields, and emits [child_changed] with the new snapshot,
    followed by the aggregate [value] exactly when the load is complete. *)
Theorem value_for_active_record
    (ops : list op) (key : string) (snap : Snapshot) :
  let s := session ops in
  let r := _valueUpdated key snap s in
  loading s !! key = None → util.has (recs s) key = true →
  after r = with_snaps (JsObject.set key snap) s
  ∧ JsObject.get (snaps (after r)) key = Some snap
  ∧ JsObject.keys (snaps (after r)) = JsObject.keys (snaps s)
  ∧ trace r
    = Emit (ChildChanged key (JSnap snap))
      :: (if loadComplete s
          then [Emit (Value (util.toArray (snaps (after r))))] else []).
Proof.
  intros s r Hl Hk. subst r. rewrite valueUpdated_eq, Hl, Hk. cbn.
  split_and!; [done|apply get_set_eq| |].
  - apply set_order, has_get, (wf_snaps _ (session_wf ops)), Hk.
  - unfold snap_of, value_trace. cbn. by rewrite get_set_eq.
Qed.

Lemma value_for_active_record_witness :
  trace (_valueUpdated "A" (mkSnap "A" 7)
           (session [Add "A" None; ValueUpdated "A" (mkSnap "A" 1)]))
  = [Emit (ChildChanged "A" (JSnap (mkSnap "A" 7)))].
Proof.
  destruct (value_for_active_record
              [Add "A" None; ValueUpdated "A" (mkSnap "A" 1)] "A" (mkSnap "A" 7))
    as (_ & _ & _ & Htr); [reflexivity..|].
  etrans; [apply Htr | reflexivity].
Defined.

(** X6: after [remove] of an active record, a value that still arrives
    for its key emits nothing: [_dropRecord] has deleted the key from
    [recs] and from [loading], so the value takes the orphan branch. *)
Theorem value_after_remove_is_silent
    (key : string) (snap : Snapshot) (s : RecordList.t) :
  util.has (recs s) key = true →
  trace (_valueUpdated key snap (after (remove key s))) = []
  ∧ recIds (after (_valueUpdated key snap (after (remove key s))))
    = util.remove (recIds s) key.
Proof.
  intros Hk. rewrite remove_eq.
  apply has_get in Hk as [r Hr]. rewrite Hr. cbn [after].
  rewrite valueUpdated_eq.
  assert (loading (dropped key s) !! key = None) as ->
      by (unfold dropped; cbn; apply lookup_delete_eq).
  cbn. unfold util.has. rewrite (proj2 (has_false_get _ _) (get_dropped key s)).
  done.
Qed.

Lemma value_after_remove_is_silent_witness :
  trace (_valueUpdated "A" (mkSnap "A" 7)
           (after (remove "A"
                     (session [Add "A" None; ValueUpdated "A" (mkSnap "A" 1)]))))
  = [].
Proof.
  apply (value_after_remove_is_silent "A" (mkSnap "A" 7)
           (session [Add "A" None; ValueUpdated "A" (mkSnap "A" 1)])).
  reflexivity.
Defined.

(** ** Keys of objects and of [recIds] *)

Section Keys.
Context {V : Type}.
Implicit Types (o : JsObject.t V) (k : string) (v : V).

Lemma get_in_keys o k : is_Some (JsObject.get o k) ↔ k ∈ JsObject.keys o.
Proof.
  unfold JsObject.keys. induction o as [|[k' v'] o IH]; cbn.
  - split; [by intros [? ?] | by intros ?%elem_of_nil].
  - rewrite elem_of_cons. destruct (decide (k = k')) as [->|Hne].
    + split; [by left | by eexists].
    + rewrite IH. split; [by right | by intros [?|?]].
Qed.

Lemma keys_create o k v : JsObject.keys (JsObject.create k v o) ≡ₚ k :: JsObject.keys o.
Proof.
  unfold JsObject.keys. induction o as [|[k' v'] o IH]; cbn; [done|].
  destruct (JsObject.comes_before k k'); cbn; [done|].
  rewrite IH. apply perm_swap.
Qed.

Lemma keys_del o k :
  JsObject.keys (JsObject.del k o) = filter (λ x, k ≠ x) (JsObject.keys o).
Proof.
  unfold JsObject.keys, JsObject.del. induction o as [|[k' v'] o IH]; [done|].
  rewrite fmap_cons, !filter_cons. cbn.
  destruct (decide (k ≠ k')); cbn; by rewrite IH.
Qed.

Lemma nodup_keys_set o k v :
  NoDup (JsObject.keys o) → NoDup (JsObject.keys (JsObject.set k v o)).
Proof.
  intros Hnd. unfold JsObject.set. destruct (JsObject.has o k) eqn:E.
  - by rewrite has_keys_replace.
  - rewrite keys_create. constructor; [|done].
    rewrite <- get_in_keys. apply has_false_get in E. rewrite E.
    by intros [? ?].
Qed.

Lemma nodup_keys_del o k :
  NoDup (JsObject.keys o) → NoDup (JsObject.keys (JsObject.del k o)).
Proof. intros. rewrite keys_del. by apply NoDup_filter. Qed.

Lemma del_absent o k : JsObject.get o k = None → JsObject.del k o = o.
Proof.
  unfold JsObject.del. induction o as [|[k' v'] o IH]; [done|].
  cbn [JsObject.get]. destruct (decide (k = k')) as [->|Hne]; [done|].
  intros H. rewrite filter_cons_True by done. by rewrite IH.
Qed.

(** Deleting a key right after creating it gives the object back. *)
Lemma del_set_new o k v :
  JsObject.get o k = None → JsObject.del k (JsObject.set k v o) = o.
Proof.
  intros Hk. unfold JsObject.set.
  rewrite (proj2 (has_false_get o k) Hk).
  revert Hk. unfold JsObject.del. induction o as [|[k' v'] o IH].
  - intros _. cbn [JsObject.create].
    by rewrite filter_cons_False by (by intros ?).
  - cbn [JsObject.get JsObject.create].
    destruct (decide (k = k')) as [->|Hne]; [done|]. intros H.
    destruct (JsObject.comes_before k k').
    + rewrite filter_cons_False by (by intros ?).
      apply (del_absent ((k', v') :: o) k). cbn. by rewrite decide_False.
    + rewrite filter_cons_True by done. by rewrite IH.
Qed.

Lemma omap_ext_in {A B} (f g : A → option B) (l : list A) :
  (∀ x, x ∈ l → f x = g x) → omap f l = omap g l.
Proof.
  induction l as [|x l IH]; [done|]. intros H. cbn.
  rewrite (H x) by apply list_elem_of_here.
  rewrite IH; [done|]. intros y Hy. apply H. by apply list_elem_of_further.
Qed.

(** Reading every key of an object gives its values, in its order. *)
Lemma omap_get_keys o :
  NoDup (JsObject.keys o) →
  omap (JsObject.get o) (JsObject.keys o) = JsObject.values o.
Proof.
  unfold JsObject.keys, JsObject.values.
  induction o as [|[k v] o IH]; [done|]. rewrite !fmap_cons.
  intros [Hk Hnd]%NoDup_cons. cbn. rewrite decide_True by done. f_equal.
  rewrite <- IH by done. apply omap_ext_in. intros x Hx.
  rewrite decide_False; [done|]. by intros ->.
Qed.
End Keys.

Section Sequence.
Implicit Types (ids l : list string) (key p x y : string).

Lemma put_after_perm key prevChild ids : put_after key prevChild ids ≡ₚ key :: ids.
Proof.
  destruct prevChild as [p|]; [|by rewrite put_after_first].
  destruct (decide (p ∈ ids)) as [Hin|Hn].
  - destruct (indexOf_split ids p Hin) as (l1 & l2 & -> & Hn).
    rewrite put_after_present by done.
    replace (l1 ++ p :: key :: l2) with ((l1 ++ [p]) ++ key :: l2)
      by by rewrite <- app_assoc.
    rewrite <- Permutation_middle. by rewrite <- app_assoc.
  - rewrite put_after_absent by done. by rewrite <- Permutation_cons_append.
Qed.

Lemma remove_split l x :
  x ∈ l → ∃ l1 l2, l = l1 ++ x :: l2 ∧ (x ∉ l1) ∧ util.remove l x = l1 ++ l2.
Proof.
  intros Hin. destruct (indexOf_split l x Hin) as (l1 & l2 & -> & Hn).
  exists l1, l2. split_and!; [done..|]. by apply remove_app.
Qed.

Lemma remove_nodup l x : NoDup l → NoDup (util.remove l x).
Proof.
  intros Hnd. destruct (decide (x ∈ l)) as [Hin|Hn].
  - destruct (remove_split l x Hin) as (l1 & l2 & -> & _ & ->).
    apply NoDup_app in Hnd as (H1 & H12 & [_ H2]%NoDup_cons).
    apply NoDup_app. split_and!; [done| |done].
    intros y Hy Hy2. apply (H12 y Hy). by apply list_elem_of_further.
  - by rewrite remove_notin.
Qed.

Lemma elem_of_remove_nodup l x y :
  NoDup l → (y ∈ util.remove l x ↔ y ≠ x ∧ y ∈ l).
Proof.
  intros Hnd. destruct (decide (x ∈ l)) as [Hin|Hn].
  - destruct (remove_split l x Hin) as (l1 & l2 & -> & Hn1 & ->).
    apply NoDup_app in Hnd as (H1 & H12 & [Hx2 H2]%NoDup_cons).
    rewrite !elem_of_app, elem_of_cons. split.
    + intros [Hy|Hy]; (split; [by intros -> | tauto]).
    + intros [Hne [Hy|[Hy|Hy]]]; tauto.
  - rewrite remove_notin by done. split; [|by intros [_ ?]].
    intros Hy. split; [by intros ->|done].
Qed.

(** Taking a key out right after putting it in gives the list back. *)
Lemma remove_put_after key prevChild ids :
  key ∉ ids → util.remove (put_after key prevChild ids) key = ids.
Proof.
  intros Hn. destruct prevChild as [p|].
  - destruct (decide (p ∈ ids)) as [Hin|Hnp].
    + destruct (indexOf_split ids p Hin) as (l1 & l2 & Hids & Hn1).
      rewrite Hids in *. rewrite put_after_present by done.
      replace (l1 ++ p :: key :: l2) with ((l1 ++ [p]) ++ key :: l2)
        by by rewrite <- app_assoc.
      rewrite remove_app; [by rewrite <- app_assoc|].
      rewrite elem_of_app, list_elem_of_singleton.
      rewrite elem_of_app, elem_of_cons in Hn. tauto.
    + rewrite put_after_absent by done. rewrite remove_app by done.
      apply app_nil_r.
  - rewrite put_after_first. by apply (remove_app [] ids key), not_elem_of_nil.
Qed.

Lemma filter_ne_remove l x :
  filter (λ y, y ≠ x) (util.remove l x) = filter (λ y, y ≠ x) l.
Proof.
  destruct (decide (x ∈ l)) as [Hin|Hn]; [|by rewrite remove_notin].
  destruct (remove_split l x Hin) as (l1 & l2 & -> & _ & ->).
  rewrite !filter_app. by rewrite filter_cons_False by (by intros ?).
Qed.

Lemma filter_ne_put_after key prevChild ids :
  filter (λ y, y ≠ key) (put_after key prevChild ids)
  = filter (λ y, y ≠ key) ids.
Proof.
  destruct prevChild as [p|].
  - destruct (decide (p ∈ ids)) as [Hin|Hnp].
    + destruct (indexOf_split ids p Hin) as (l1 & l2 & -> & Hn1).
      rewrite put_after_present by done. rewrite !filter_app. f_equal.
      rewrite !filter_cons. destruct (decide (p ≠ key)); f_equal;
        by rewrite decide_False by (by intros ?).
    + rewrite put_after_absent by done. rewrite filter_app.
      rewrite filter_cons_False by (by intros ?). apply app_nil_r.
  - rewrite put_after_first. by rewrite filter_cons_False by (by intros ?).
Qed.

(** The previous child of a key that was just put into a list it was not
    in: the sibling it was put after, if that is in the list. *)
Lemma prev_child_put_after key prevChild ids :
  key ∉ ids →
  prev_child (put_after key prevChild ids) key
  = match prevChild with
    | None => None
    | Some p => if bool_decide (p ∈ ids) then Some p else last ids
    end.
Proof.
  intros Hn. destruct prevChild as [p|].
  - case_bool_decide as Hp.
    + destruct (indexOf_split ids p Hp) as (l1 & l2 & -> & Hn1).
      rewrite put_after_present by done.
      rewrite elem_of_app, elem_of_cons in Hn.
      apply prev_child_after; [tauto|]. intros ->. tauto.
    + rewrite put_after_absent by done.
      destruct ids as [|x ids _] using rev_ind.
      * apply prev_child_first.
      * rewrite last_snoc, <- app_assoc. cbn.
        rewrite elem_of_app, list_elem_of_singleton in Hn.
        apply prev_child_after; [tauto|]. intros ->. tauto.
  - rewrite put_after_first. apply prev_child_first.
Qed.
End Sequence.

(** ** Promotion undone by removal *)

Lemma checked_loading okey s : loading (checked okey s) = loading s.
Proof.
  unfold checked. destruct (loadComplete s); [done|].
  destruct okey as [k|]; cbn; [destruct (negb _)|];
    by destruct (_ && _).
Qed.

(** X7: for a pending key that is not yet anywhere else in the list, the
    first value followed by [remove] puts [recs], [snaps] and [recIds]
    back exactly, order included; what is left of the key is that its
    pending record is gone. *)
Theorem promote_then_remove_restores
    (key : string) (snap : Snapshot) (r : Loading) (s : RecordList.t) :
  loading s !! key = Some r →
  util.has (recs s) key = false → util.has (snaps s) key = false →
  key ∉ recIds s →
  let s2 := after (remove key (after (_valueUpdated key snap s))) in
  recs s2 = recs s ∧ snaps s2 = snaps s ∧ recIds s2 = recIds s
  ∧ loading s2 = delete key (loading s).
Proof.
  intros Hl Hr%has_false_get Hs%has_false_get Hn. cbv zeta.
  rewrite valueUpdated_eq, Hl. cbv zeta. cbn [after].
  set (s1 := checked (Some key) (promoted key snap r s)).
  assert (recs s1 = JsObject.set key (rec r) (recs s)) as Hrecs
    by (subst s1; by rewrite checked_recs).
  assert (snaps s1 = JsObject.set key snap (snaps s)) as Hsnaps
    by (subst s1; by rewrite checked_snaps).
  assert (recIds s1 = put_after key (prev r) (recIds s)) as Hids
    by (subst s1; by rewrite checked_recIds).
  assert (loading s1 = delete key (loading s)) as Hload
    by (subst s1; by rewrite checked_loading).
  rewrite remove_eq, Hrecs, get_set_eq. cbn [after]. unfold dropped.
  cbn [recs snaps recIds loading with_recs with_snaps with_loading with_recIds].
  rewrite Hrecs, Hsnaps, Hids, Hload.
  rewrite !del_set_new, remove_put_after by done.
  by rewrite delete_delete_eq.
Qed.

Lemma promote_then_remove_restores_witness :
  let s := session [Add "A" None; ValueUpdated "A" (mkSnap "A" 1);
                    Add "B" (Some "A")] in
  recIds (after (remove "B" (after (_valueUpdated "B" (mkSnap "B" 2) s))))
  = recIds s.
Proof.
  intros s.
  destruct (promote_then_remove_restores "B" (mkSnap "B" 2)
              (mkLoading (Child "B") (Some "A")) s) as (_ & _ & Hids & _).
  - reflexivity.
  - reflexivity.
  - reflexivity.
  - vm_compute. intros [H|[]%elem_of_nil]%elem_of_cons. discriminate H.
  - exact Hids.
Defined.

(** ** Full reset *)

Section Reset.
Implicit Types (s : RecordList.t) (key k : string) (o : op) (ops : list op).

Lemma step_objects_ok o s : objects_ok s → objects_ok (after (step o s)).
Proof.
  intros [Hr Hs].
  destruct o as [key prevChild|key|key prevChild| | |key snap]; cbn [step].
  - rewrite add_eq. cbn. by destruct (loadComplete s).
  - rewrite remove_eq. destruct (JsObject.get (recs s) key); [|done].
    split; cbn; by apply nodup_keys_del.
  - rewrite move_eq. by destruct (util.has (recs s) key).
  - rewrite masterPathLoaded_eq. cbn. split.
    + by rewrite checked_recs.
    + by rewrite checked_snaps.
  - unfold unloaded. rewrite reset_eq. split; constructor.
  - rewrite valueUpdated_eq. destruct (loading s !! key); cbn.
    + split.
      * rewrite checked_recs. cbn. by apply nodup_keys_set.
      * rewrite checked_snaps. cbn. by apply nodup_keys_set.
    + split; cbn; [done | by apply nodup_keys_set].
Qed.

Lemma run_objects_ok ops s : objects_ok s → objects_ok (after (run ops s)).
Proof.
  revert s. induction ops as [|o ops IH]; intros s Hs; [done|].
  rewrite run_cons. cbn. by apply IH, step_objects_ok.
Qed.

Lemma session_objects_ok ops : objects_ok (session ops).
Proof. apply run_objects_ok. split; constructor. Qed.

Lemma removals_app tr1 tr2 : removals (tr1 ++ tr2) = removals tr1 ++ removals tr2.
Proof. apply omap_app. Qed.

Lemma unwatched_app tr1 tr2 :
  unwatched (tr1 ++ tr2) = unwatched tr1 ++ unwatched tr2.
Proof. apply omap_app. Qed.

Lemma value_trace_quiet s :
  removals (value_trace s) = [] ∧ unwatched (value_trace s) = []
  ∧ count_children (value_trace s) = 0%nat.
Proof. unfold value_trace. by destruct (loadComplete s). Qed.

Lemma snap_of_dropped k k' s : k ≠ k' → snap_of (dropped k s) k' = snap_of s k'.
Proof.
  intros Hne. unfold snap_of.
  change (snaps (dropped k s)) with (JsObject.del k (snaps s)).
  by rewrite get_del_ne.
Qed.

Lemma get_recs_dropped k k' s :
  k ≠ k' → JsObject.get (recs (dropped k s)) k' = JsObject.get (recs s) k'.
Proof.
  intros Hne. change (recs (dropped k s)) with (JsObject.del k (recs s)).
  by rewrite get_del_ne.
Qed.

(** The loop of [_reset] over keys that are all active. *)
Lemma each_rec_removals ks s :
  NoDup ks → (∀ k, k ∈ ks → is_Some (JsObject.get (recs s) k)) →
  let r := each_rec ks remove s in
  removals (trace r) = (λ k, (k, snap_of s k)) <$> ks
  ∧ unwatched (trace r) = omap (JsObject.get (recs s)) ks
  ∧ count_values (trace r)
    = if loadComplete s then length ks else 0%nat.
Proof.
  revert s. induction ks as [|k ks IH]; intros s Hnd Hks; cbv zeta.
  { cbn. by destruct (loadComplete s). }
  apply NoDup_cons in Hnd as [Hk Hnd].
  destruct (Hks k) as [r Hr]; [apply list_elem_of_here|].
  cbn [each_rec]. step. rewrite preceded_nil.
  unfold util.has. rewrite (proj2 (has_get (recs s) k)) by by eexists.
  rewrite (bind_run _ _ s tt (dropped k s)
             (Unwatch r ValueUpdatedMethod
                :: Emit (ChildRemoved k (snap_of s k))
                :: value_trace (dropped k s)))
    by (by rewrite remove_eq, Hr).
  unfold preceded. cbn [trace].
  destruct (IH (dropped k s) Hnd) as (IH1 & IH2 & IH3).
  { intros k' Hk'. rewrite get_recs_dropped.
    - apply Hks. by apply list_elem_of_further.
    - by intros ->. }
  destruct (value_trace_quiet (dropped k s)) as (Hq1 & Hq2 & _).
  split_and!.
  - rewrite removals_app, IH1. unfold removals in *. cbn. rewrite Hq1. cbn.
    f_equal. apply list_fmap_ext. intros i k' Hk'%list_elem_of_lookup_2.
    rewrite snap_of_dropped; [done|]. by intros ->.
  - rewrite unwatched_app, IH2. unfold unwatched in *. cbn.
    rewrite Hq2, Hr. cbn. f_equal. apply omap_ext_in. intros k' Hk'.
    rewrite get_recs_dropped; [done|]. by intros ->.
  - rewrite count_values_app, IH3.
    unfold count_values, value_trace, dropped. cbn.
    by destruct (loadComplete s).
Qed.
End Reset.

(** X8: [unloaded] drops every active record and nothing else: for each
    key of [recs], in the key order of that object, it calls [unwatch] on
    the key's record and emits [child_removed] with the key's last
    snapshot, and once per record the aggregate [value] if the load was
    complete; it leaves the list as new, so that a second [unloaded] in a
    row emits nothing. *)
Theorem unloaded_drops_every_active_record (ops : list op) :
  let s := session ops in
  let r := unloaded s in
  after r = RecordList.empty
  ∧ removals (trace r) = (λ k, (k, snap_of s k)) <$> JsObject.keys (recs s)
  ∧ unwatched (trace r) = JsObject.values (recs s)
  ∧ count_values (trace r)
    = (if loadComplete s then length (JsObject.keys (recs s)) else 0%nat)
  ∧ unloaded (after r) = mkResult (Normal tt) RecordList.empty [].
Proof.
  intros s r. subst r. unfold unloaded. rewrite reset_eq. cbn [after trace].
  destruct (session_objects_ok ops) as [Hnd _]. fold s in Hnd.
  destruct (each_rec_removals (JsObject.keys (recs s)) s Hnd)
    as (H1 & H2 & H3); [by intros k ?%get_in_keys|].
  split_and!; [done|done| |done|by rewrite reset_eq].
  rewrite H2. by apply omap_get_keys.
Qed.

(** ** Sessions that never add a tracked key *)

Section Tidy.
Implicit Types (s : RecordList.t) (key k : string) (o : op) (ops : list op).

Lemma checked_left okey s :
  initialKeysLeft (checked okey s)
  = if loadComplete s then initialKeysLeft s
    else match okey with
         | Some k =>
             if truthy okey then util.remove (initialKeysLeft s) k
             else initialKeysLeft s
         | None => initialKeysLeft s
         end.
Proof.
  unfold checked. destruct (loadComplete s); [done|].
  destruct okey as [k|]; cbn; [destruct (negb _)|];
    by destruct (_ && _).
Qed.

Lemma has_del_false {V} (o : JsObject.t V) k k' :
  util.has o k' = false → util.has (JsObject.del k o) k' = false.
Proof.
  intros H. destruct (util.has (JsObject.del k o) k') eqn:E; [|done].
  apply has_del in E as [_ E]. congruence.
Qed.

Lemma has_set_false {V} (o : JsObject.t V) k k' v :
  k' ≠ k → util.has o k' = false → util.has (JsObject.set k v o) k' = false.
Proof.
  intros Hne H. destruct (util.has (JsObject.set k v o) k') eqn:E; [|done].
  apply has_set in E as [E|E]; congruence.
Qed.

Lemma is_Some_delete (m : gmap string Loading) k k' :
  is_Some (delete k m !! k') ↔ k' ≠ k ∧ is_Some (m !! k').
Proof.
  destruct (decide (k = k')) as [->|Hne].
  - rewrite lookup_delete_eq. split; [by intros [? ?] | by intros [? _]].
  - rewrite lookup_delete_ne by done. split; [done | by intros [_ ?]].
Qed.

Lemma fresh_add_spec key prevChild s :
  fresh_add (Add key prevChild) s = true →
  key ≠ EmptyString ∧ loading s !! key = None ∧ util.has (recs s) key = false.
Proof.
  unfold fresh_add, tracked, pending, active.
  intros [Hk Ht]%andb_true_iff.
  apply negb_true_iff, bool_decide_eq_false in Hk.
  apply negb_true_iff, orb_false_iff in Ht as [Hp Ha].
  apply bool_decide_eq_false in Hp. split_and!; [done| |done].
  destruct (loading s !! key); [|done]. destruct Hp. by eexists.
Qed.

Lemma tidy_empty : tidy RecordList.empty.
Proof.
  split; cbn; try done.
  - constructor.
  - intros k. split; [by intros ?%elem_of_nil | done].
  - constructor.
  - by intros k ?%elem_of_nil.
Qed.

Lemma tidy_add key prevChild s :
  tidy s → fresh_add (Add key prevChild) s = true →
  tidy (after (add key prevChild s)).
Proof.
  intros [Hids Hact Hpen Hleft Hlp Hkey] (Hne & Hl & Hr)%fresh_add_spec.
  rewrite add_eq. cbn [after].
  assert (∀ k, is_Some (<[key:=mkLoading (Child key) prevChild]> (loading s) !! k)
               → util.has (recs s) k = false) as Hpen'.
  { intros k. destruct (decide (key = k)) as [<-|Hk]; [done|].
    rewrite lookup_insert_ne by done. apply Hpen. }
  assert (key ∉ initialKeysLeft s) as Hfresh.
  { intros Hin%Hlp. rewrite Hl in Hin. by destruct Hin. }
  destruct (loadComplete s); split; cbn; try done.
  - intros k Hk. destruct (decide (key = k)) as [<-|Hne'].
    + rewrite lookup_insert_eq. by eexists.
    + rewrite lookup_insert_ne by done. auto.
  - by rewrite lookup_insert_ne.
  - apply NoDup_app. split_and!; [done| |apply NoDup_singleton].
    intros k Hk ->%list_elem_of_singleton. done.
  - intros k [Hk| ->%list_elem_of_singleton]%elem_of_app.
    + destruct (decide (key = k)) as [<-|Hne']; [done|].
      rewrite lookup_insert_ne by done. auto.
    + rewrite lookup_insert_eq. by eexists.
  - by rewrite lookup_insert_ne.
Qed.

Lemma tidy_dropped key s :
  tidy s → util.has (recs s) key = true → tidy (dropped key s).
Proof.
  intros [Hids Hact Hpen Hleft Hlp Hkey] Hk. unfold dropped. split; cbn.
  - by apply remove_nodup.
  - intros k. rewrite elem_of_remove_nodup by done. rewrite Hact.
    symmetry. apply has_del.
  - intros k [_ Hp]%is_Some_delete. by apply has_del_false, Hpen.
  - done.
  - intros k Hin%Hlp. apply is_Some_delete. split; [|done].
    intros ->. apply Hpen in Hin. congruence.
  - destruct (decide (key = EmptyString)) as [->|Hne].
    + apply lookup_delete_eq.
    + by rewrite lookup_delete_ne.
Qed.

Lemma tidy_move key prevChild s : tidy s → tidy (after (move key prevChild s)).
Proof.
  intros Ht. rewrite move_eq. destruct (util.has (recs s) key) eqn:Hk; [|done].
  destruct Ht as [Hids Hact Hpen Hleft Hlp Hkey]. cbn [after].
  assert (key ∈ recIds s) as Hin by by apply Hact.
  split; cbn; try done.
  - rewrite splice_out_found by done. rewrite put_after_perm.
    constructor; [|by apply remove_nodup].
    rewrite elem_of_remove_nodup by done. by intros [? _].
  - intros k. rewrite splice_out_found by done.
    rewrite elem_of_put_after, elem_of_remove_nodup by done.
    rewrite <- Hact. split.
    + intros [->|[_ ?]]; done.
    + intros Hk'. destruct (decide (k = key)); [by left | by right].
Qed.

Lemma tidy_valueUpdated key snap s :
  wf s → tidy s → tidy (after (_valueUpdated key snap s)).
Proof.
  intros Hwf [Hids Hact Hpen Hleft Hlp Hkey]. rewrite valueUpdated_eq.
  destruct (loading s !! key) as [r|] eqn:Hl; cbn [after]; [|done].
  assert (util.has (recs s) key = false) as Hr by (apply Hpen; by eexists).
  assert (key ∉ recIds s) as Hn by (rewrite Hact; congruence).
  assert (key ≠ EmptyString) as Hne by (intros ->; congruence).
  split.
  - rewrite checked_recIds. unfold promoted; cbn. rewrite put_after_perm. by constructor.
  - intros k. rewrite checked_recIds, checked_recs. unfold promoted; cbn.
    rewrite elem_of_put_after, has_set, Hact. done.
  - intros k. rewrite checked_loading, checked_recs. unfold promoted; cbn.
    intros [Hk Hp]%is_Some_delete. apply has_set_false; auto.
  - rewrite checked_left. unfold promoted; cbn. rewrite bool_decide_eq_false_2 by done. unfold promoted; cbn.
    destruct (loadComplete s); [done | by apply remove_nodup].
  - intros k. rewrite checked_left, checked_loading. unfold promoted; cbn.
    rewrite bool_decide_eq_false_2 by done. unfold promoted; cbn.
    destruct (loadComplete s) eqn:Hdone.
    + apply (wf_load _ Hwf) in Hdone as [_ ->]. by intros ?%elem_of_nil.
    + rewrite elem_of_remove_nodup by done. intros [Hk Hin].
      apply is_Some_delete. auto.
  - rewrite checked_loading. unfold promoted; cbn. by rewrite lookup_delete_ne.
Qed.

Lemma step_tidy o s :
  wf s → tidy s → fresh_add o s = true → tidy (after (step o s)).
Proof.
  intros Hwf Ht Hfresh.
  destruct o as [key prevChild|key|key prevChild| | |key snap]; cbn [step].
  - by apply tidy_add.
  - rewrite remove_eq. destruct (JsObject.get (recs s) key) eqn:E; [|done].
    apply tidy_dropped; [done|]. apply has_get. by eexists.
  - by apply tidy_move.
  - rewrite masterPathLoaded_eq.
    destruct Ht as [Hids Hact Hpen Hleft Hlp Hkey]. cbn. split.
    + by rewrite checked_recIds.
    + intros k. rewrite checked_recIds, checked_recs. apply Hact.
    + intros k. rewrite checked_loading, checked_recs. apply Hpen.
    + rewrite checked_left. cbn. by destruct (loadComplete s).
    + intros k. rewrite checked_left, checked_loading. cbn.
      destruct (loadComplete s); apply Hlp.
    + by rewrite checked_loading.
  - unfold unloaded. rewrite reset_eq. apply tidy_empty.
  - by apply tidy_valueUpdated.
Qed.

Lemma run_tidy ops s :
  wf s → tidy s → along fresh_add ops s = true → tidy (after (run ops s)).
Proof.
  revert s. induction ops as [|o ops IH]; intros s Hwf Ht Hal; [done|].
  cbn in Hal. apply andb_true_iff in Hal as [Ho Hal].
  rewrite run_cons. cbn. apply IH; [by apply step_wf | by apply step_tidy | done].
Qed.

Lemma session_tidy ops :
  along fresh_add ops RecordList.empty = true → tidy (session ops).
Proof. apply run_tidy; [apply wf_empty | apply tidy_empty]. Qed.
End Tidy.

(** X9: in a session where no operation is about the key [__proto__] and
    [add] never comes for a key that is pending or active (nor for the
    empty key), [recIds] lists every active key exactly once and nothing
    else, and a pending key is neither active nor in [recIds]. *)
Theorem sequence_holds_active_keys_once (ops : list op) :
  plain_keys ops = true →
  along fresh_add ops RecordList.empty = true →
  let s := session ops in
  NoDup (recIds s)
  ∧ (∀ k, k ∈ recIds s ↔ util.has (recs s) k = true)
  ∧ (∀ k, is_Some (loading s !! k) →
       util.has (recs s) k = false ∧ k ∉ recIds s).
Proof.
  intros _ [Hids Hact Hpen _ _ _]%session_tidy. cbv zeta.
  split_and!; [done..|]. intros k Hk%Hpen. split; [done|].
  rewrite Hact. congruence.
Qed.

Lemma sequence_holds_active_keys_once_witness :
  NoDup (recIds (session [Add "A" None; Add "B" (Some "A");
                          ValueUpdated "B" (mkSnap "B" 2);
                          ValueUpdated "A" (mkSnap "A" 1); Move "A" (Some "B");
                          Remove "B"; Add "B" None])).
Proof.
  apply (sequence_holds_active_keys_once
           [Add "A" None; Add "B" (Some "A"); ValueUpdated "B" (mkSnap "B" 2);
            ValueUpdated "A" (mkSnap "A" 1); Move "A" (Some "B");
            Remove "B"; Add "B" None]).
  - vm_compute. reflexivity.
  - vm_compute. reflexivity.
Defined.

(** Without that condition a key can be in [recIds] twice. *)
Lemma readded_key_is_listed_twice :
  recIds (session [Add "A" None; ValueUpdated "A" (mkSnap "A" 1);
                   Add "A" None; ValueUpdated "A" (mkSnap "A" 2)])
  = ["A"; "A"].
Proof. reflexivity. Qed.

(** X10: in such a session the keys of [initialKeysLeft] are all pending,
    each listed once, so as soon as the master list has loaded and no
    record is pending the load is complete. *)
Theorem load_completes_when_nothing_pending (ops : list op) :
  along fresh_add ops RecordList.empty = true →
  let s := session ops in
  NoDup (initialKeysLeft s)
  ∧ (∀ k, k ∈ initialKeysLeft s → is_Some (loading s !! k))
  ∧ (masterLoaded s = true → (∀ k, loading s !! k = None) →
     loadComplete s = true).
Proof.
  intros [_ _ _ Hleft Hlp _]%session_tidy. cbv zeta.
  split_and!; [done..|]. intros Hm Hnone.
  apply (wf_load _ (session_wf ops)). split; [done|].
  destruct (initialKeysLeft (session ops)) as [|k l]; [done|].
  destruct (Hlp k) as [r Hr]; [apply list_elem_of_here|].
  rewrite Hnone in Hr. discriminate Hr.
Qed.

Lemma load_completes_when_nothing_pending_witness :
  loadComplete (session [Add "A" None; MasterPathLoaded; Add "B" None;
                         ValueUpdated "A" (mkSnap "A" 1);
                         ValueUpdated "B" (mkSnap "B" 2)]) = true.
Proof.
  apply (load_completes_when_nothing_pending
           [Add "A" None; MasterPathLoaded; Add "B" None;
            ValueUpdated "A" (mkSnap "A" 1); ValueUpdated "B" (mkSnap "B" 2)]).
  - vm_compute. reflexivity.
  - vm_compute. reflexivity.
  - intros k. vm_compute. reflexivity.
Defined.

(** ** Sessions without orphan values *)

Section Exact.
Implicit Types (s : RecordList.t) (key k : string) (o : op) (ops : list op).

Lemma no_orphan_spec key snap s :
  no_orphan (ValueUpdated key snap) s = true →
  is_Some (loading s !! key) ∨ util.has (recs s) key = true.
Proof.
  unfold no_orphan, tracked, pending, active.
  intros [H%bool_decide_eq_true|H]%orb_true_iff; auto.
Qed.

Lemma step_snaps_active o s :
  (∀ k, util.has (snaps s) k = true → util.has (recs s) k = true) →
  no_orphan o s = true →
  ∀ k, util.has (snaps (after (step o s))) k = true
       → util.has (recs (after (step o s))) k = true.
Proof.
  intros Hs Ho.
  destruct o as [key prevChild|key|key prevChild| | |key snap]; cbn [step].
  - rewrite add_eq. cbn. by destruct (loadComplete s).
  - rewrite remove_eq. destruct (JsObject.get (recs s) key); [|done].
    unfold dropped. cbn [after recs snaps with_recIds with_loading with_snaps with_recs].
    intros k [Hne Hk]%has_del. apply has_del. auto.
  - rewrite move_eq. by destruct (util.has (recs s) key).
  - rewrite masterPathLoaded_eq. cbn. intros k.
    rewrite checked_recs, checked_snaps. apply Hs.
  - unfold unloaded. by rewrite reset_eq.
  - apply no_orphan_spec in Ho. rewrite valueUpdated_eq.
    destruct (loading s !! key) as [r|] eqn:Hl; cbn [after].
    + intros k. rewrite checked_recs, checked_snaps. unfold promoted.
      cbn [recs snaps with_recIds with_loading with_snaps with_recs].
      intros [->|Hk]%has_set; apply has_set; auto.
    + destruct Ho as [[? ?]|Hact]; [done|].
      cbn [recs snaps with_snaps]. intros k [->|Hk]%has_set; auto.
Qed.

Lemma run_snaps_active ops s :
  (∀ k, util.has (snaps s) k = true → util.has (recs s) k = true) →
  along no_orphan ops s = true →
  ∀ k, util.has (snaps (after (run ops s))) k = true
       → util.has (recs (after (run ops s))) k = true.
Proof.
  revert s. induction ops as [|o ops IH]; intros s Hs Hal; [done|].
  cbn in Hal. apply andb_true_iff in Hal as [Ho Hal].
  rewrite run_cons. cbn. apply IH; [by apply step_snaps_active | done].
Qed.

Lemma along_and (P Q : op → RecordList.t → bool) ops s :
  along (λ o s0, P o s0 && Q o s0) ops s = true →
  along P ops s = true ∧ along Q ops s = true.
Proof.
  revert s. induction ops as [|o ops IH]; intros s; [done|]. cbn.
  intros [[HP HQ]%andb_true_iff [H1 H2]%IH]%andb_true_iff.
  by rewrite HP, HQ, H1, H2.
Qed.
End Exact.

(** X11: in a session where no operation is about the key [__proto__],
    [add] never comes for a tracked key and a value only comes for a key
    that is pending or active, [snaps] holds a snapshot for the active
    keys and for no other key, and the payload of the aggregate [value],
    [util.toArray(this.snaps)], is a rearrangement of the active records'
    snapshots taken in the order of [recIds]. *)
Theorem payload_rearranges_active_snapshots (ops : list op) :
  plain_keys ops = true →
  along (λ o s, fresh_add o s && no_orphan o s) ops RecordList.empty = true →
  let s := session ops in
  (∀ k, util.has (snaps s) k = true ↔ util.has (recs s) k = true)
  ∧ util.toArray (snaps s) ≡ₚ payload_in_sequence_order s.
Proof.
  intros _ [Hfresh Horph]%along_and. cbv zeta.
  destruct (session_tidy ops Hfresh) as [Hids Hact _ _ _ _].
  destruct (session_objects_ok ops) as [_ Hnd].
  pose proof (session_wf ops) as Hwf.
  assert (∀ k, util.has (snaps (session ops)) k = true
               ↔ util.has (recs (session ops)) k = true) as Hiff.
  { intros k. split; [|apply (wf_snaps _ Hwf)].
    by apply (run_snaps_active ops RecordList.empty). }
  split; [done|].
  unfold payload_in_sequence_order, util.toArray.
  rewrite (omap_ext_in _ (JsObject.get (snaps (session ops)))).
  - rewrite <- omap_get_keys by done. apply omap_Permutation.
    apply NoDup_Permutation; [done..|]. intros k.
    rewrite <- get_in_keys, Hact, <- Hiff. symmetry. apply has_get.
  - intros k Hk%Hact. by rewrite Hk.
Qed.

Lemma payload_rearranges_active_snapshots_witness :
  util.toArray (snaps (session scenario_1))
  ≡ₚ payload_in_sequence_order (session scenario_1).
Proof.
  apply (payload_rearranges_active_snapshots scenario_1).
  - vm_compute. reflexivity.
  - vm_compute. reflexivity.
Defined.

(** ** What one operation does to the order and to the consumer *)

(** X12: no operation but [unloaded] reorders the keys it is not about:
    with the operation's own key left out, [recIds] reads the same before
    and after. *)
Theorem other_keys_keep_their_order (ops : list op) (o : op) (k : string) :
  o ≠ Unloaded → (∀ k', key_of o = Some k' → k' = k) →
  filter (λ x, x ≠ k) (recIds (after (step o (session ops))))
  = filter (λ x, x ≠ k) (recIds (session ops)).
Proof.
  intros Ho Hk. pose proof (session_wf ops) as Hwf.
  set (s := session ops) in *.
  destruct o as [key prevChild|key|key prevChild| | |key snap];
    cbn [step]; cbn in Hk.
  - rewrite add_eq. cbn. by destruct (loadComplete s).
  - rewrite <- (Hk key eq_refl), remove_eq.
    destruct (JsObject.get (recs s) key); [|done].
    unfold dropped. cbn. apply filter_ne_remove.
  - rewrite <- (Hk key eq_refl), move_eq.
    destruct (util.has (recs s) key) eqn:E; [|done]. cbn.
    rewrite splice_out_found by by apply (wf_ids _ Hwf).
    by rewrite filter_ne_put_after, filter_ne_remove.
  - rewrite masterPathLoaded_eq. cbn. by rewrite checked_recIds.
  - done.
  - rewrite <- (Hk key eq_refl), valueUpdated_eq.
    destruct (loading s !! key); cbn; [|done].
    rewrite checked_recIds. unfold promoted. cbn.
    apply filter_ne_put_after.
Qed.

Lemma other_keys_keep_their_order_witness :
  filter (λ x, x ≠ "C")
    (recIds (after (step (Move "C" None) (session loaded_ABC))))
  = ["A"; "B"].
Proof.
  etrans.
  - apply (other_keys_keep_their_order loaded_ABC (Move "C" None) "C").
    + discriminate.
    + intros k' [= <-]. reflexivity.
  - vm_compute. reflexivity.
Defined.

Section Emission.
Implicit Types (s : RecordList.t) (key : string).

Lemma count_filter_cons (f : effect → bool) e tr :
  length (filter f (e :: tr))
  = ((if f e then 1 else 0) + length (filter f tr))%nat.
Proof. rewrite filter_cons. by destruct (f e). Qed.

(** What a trace made of effects that are no aggregate [value], followed
    by the trace of [_notifyValue], counts up to. *)
Lemma counts_before_value (pre : list effect) s :
  count_values pre = 0%nat → (count_children pre ≤ 1)%nat →
  let tr := pre ++ value_trace s in
  (count_children tr ≤ 1)%nat
  ∧ (count_values tr ≤ 1)%nat
  ∧ count_values tr = (if loadComplete s then 1%nat else 0%nat)
  ∧ (count_values tr = 1%nat →
     last tr = Some (Emit (Value (util.toArray (snaps s))))).
Proof.
  intros Hv Hc. cbv zeta.
  assert (count_children (pre ++ value_trace s) = count_children pre) as ->.
  { unfold count_children. rewrite filter_app, length_app.
    destruct (value_trace_quiet s) as (_ & _ & Hq).
    unfold count_children in Hq. rewrite Hq. lia. }
  assert (count_values (value_trace s)
          = if loadComplete s then 1%nat else 0%nat) as Hvt
    by (unfold value_trace; by destruct (loadComplete s)).
  rewrite count_values_app, Hv, Hvt. cbn [Nat.add].
  unfold value_trace. destruct (loadComplete s).
  - split_and!; [done|lia|done|]. intros _. by rewrite last_snoc.
  - split_and!; [done|lia|done|done].
Qed.

Lemma no_double_value key snap r s :
  wf s → loading s !! key = Some r →
  negb (loadComplete s)
    && loadComplete (checked (Some key) (promoted key snap r s))
    && bool_decide (key = EmptyString) = false.
Proof.
  intros Hwf Hl. case_bool_decide as Hk; [|apply andb_false_r].
  rewrite andb_true_r. destruct (loadComplete s) eqn:Hdone; [done|]. cbn.
  apply checked_falsy; subst key; [done| |done].
  unfold promoted. cbn. intros H. apply (wf_load _ Hwf) in H. congruence.
Qed.
End Emission.

Ltac count_trace :=
  unfold count_children, count_values; rewrite ?count_filter_cons; cbn.

(** X13: in a session every operation but [unloaded] sends the consumer
    at most one [child_*] notification and at most one aggregate [value];
    when it sends a [child_*] notification the [value] goes with it
    exactly if the load is complete after the operation; and a [value] it
    sends is the last thing it does, with [snaps] as the operation
    leaves it. *)
Theorem step_notifies_once (ops : list op) (o : op) :
  o ≠ Unloaded →
  let r := step o (session ops) in
  (count_children (trace r) ≤ 1)%nat
  ∧ (count_values (trace r) ≤ 1)%nat
  ∧ (count_children (trace r) = 1%nat →
     count_values (trace r)
     = if loadComplete (after r) then 1%nat else 0%nat)
  ∧ (count_values (trace r) = 1%nat →
     last (trace r) = Some (Emit (Value (util.toArray (snaps (after r)))))).
Proof.
  intros Ho. pose proof (session_wf ops) as Hwf.
  set (s := session ops) in *. cbv zeta.
  assert (∀ (pre : list effect) s',
            count_values pre = 0%nat → (count_children pre ≤ 1)%nat →
            (count_children (pre ++ value_trace s') ≤ 1)%nat
            ∧ (count_values (pre ++ value_trace s') ≤ 1)%nat
            ∧ (count_children (pre ++ value_trace s') = 1%nat →
               count_values (pre ++ value_trace s')
               = if loadComplete s' then 1%nat else 0%nat)
            ∧ (count_values (pre ++ value_trace s') = 1%nat →
               last (pre ++ value_trace s')
               = Some (Emit (Value (util.toArray (snaps s')))))) as Hshape.
  { intros pre s' Hv Hc.
    destruct (counts_before_value pre s' Hv Hc) as (H1 & H2 & H3 & H4).
    done. }
  destruct o as [key prevChild|key|key prevChild| | |key snap]; cbn [step].
  - rewrite add_eq. cbn [trace]. count_trace. split_and!; [lia|lia|done|done].
  - rewrite remove_eq. destruct (JsObject.get (recs s) key) as [h|].
    + apply (Hshape [Unwatch h ValueUpdatedMethod;
                     Emit (ChildRemoved key (snap_of s key))]); [by count_trace | count_trace; lia].
    + cbn [trace]. count_trace. split_and!; [lia|lia|done|done].
  - rewrite move_eq. destruct (util.has (recs s) key).
    + cbv zeta. cbn [after trace].
      match goal with |- context [Emit (ChildMoved ?a ?b ?c) :: value_trace ?s'] =>
        apply (Hshape [Emit (ChildMoved a b c)] s') end; [by count_trace | count_trace; lia].
    + cbn [trace]. count_trace. split_and!; [lia|lia|done|done].
  - rewrite masterPathLoaded_eq. cbv zeta. cbn [after trace].
    destruct (_ && _).
    + apply (Hshape []); [by count_trace | count_trace; lia].
    + cbn [trace]. count_trace. split_and!; [lia|lia|done|done].
  - done.
  - rewrite valueUpdated_eq. destruct (loading s !! key) as [l|] eqn:Hl.
    + cbv zeta. cbn [after trace]. rewrite no_double_value by done.
      rewrite app_nil_l.
      match goal with |- context [Emit (ChildAdded ?a ?b ?c) :: value_trace ?s'] =>
        apply (Hshape [Emit (ChildAdded a b c)] s') end; [by count_trace | count_trace; lia].
    + cbv zeta. cbn [after trace]. destruct (util.has (recs s) key).
      * match goal with |- context [Emit (ChildChanged ?a ?b) :: value_trace ?s'] =>
          apply (Hshape [Emit (ChildChanged a b)] s') end; [by count_trace | count_trace; lia].
      * cbn [trace]. count_trace. split_and!; [lia|lia|done|done].
Qed.

Lemma step_notifies_once_witness :
  last (trace (step (Remove "B") (session loaded_ABC)))
  = Some (Emit (Value [mkSnap "A" 1; mkSnap "C" 3])).
Proof.
  destruct (step_notifies_once loaded_ABC (Remove "B")) as (_ & _ & _ & Hlast);
    [discriminate|].
  etrans; [apply Hlast; vm_compute; reflexivity|].
  vm_compute. reflexivity.
Defined.

(** ** The previous key the consumer is told *)

(** X14: in a session that never adds a tracked key, the first value of a
    pending key emits [child_added] with the snapshot and, as previous
    key, the sibling given to [add] if that sibling is in [recIds] at
    that moment, the last key of [recIds] if it is not, and null if the
    sibling was null. *)
Theorem child_added_reports_sibling
    (ops : list op) (key : string) (snap : Snapshot) (r : Loading) :
  along fresh_add ops RecordList.empty = true →
  let s := session ops in
  loading s !! key = Some r →
  ∃ rest,
    trace (_valueUpdated key snap s)
    = Emit (ChildAdded key (JSnap snap)
              match prev r with
              | None => None
              | Some p =>
                  if bool_decide (p ∈ recIds s) then Some p
                  else last (recIds s)
              end) :: rest.
Proof.
  intros Hfresh s Hl. destruct (session_tidy ops Hfresh) as [_ Hact Hpen _ _ _].
  fold s in Hact, Hpen.
  assert (key ∉ recIds s) as Hn.
  { rewrite Hact, Hpen by (by eexists). done. }
  rewrite valueUpdated_eq, Hl. cbv zeta. cbn [trace].
  rewrite no_double_value by (done || apply session_wf). rewrite app_nil_l.
  set (s' := checked (Some key) (promoted key snap r s)).
  assert (snap_of s' key = JSnap snap) as ->.
  { unfold snap_of. subst s'. rewrite checked_snaps. unfold promoted. cbn.
    by rewrite get_set_eq. }
  assert (recIds s' = put_after key (prev r) (recIds s)) as ->
      by (subst s'; by rewrite checked_recIds).
  rewrite prev_child_put_after by done. by eexists.
Qed.

Lemma child_added_reports_sibling_witness :
  ∃ rest,
    trace (_valueUpdated "C" (mkSnap "C" 3)
             (session [Add "A" None; Add "B" (Some "A"); Add "C" (Some "A");
                       ValueUpdated "A" (mkSnap "A" 1);
                       ValueUpdated "B" (mkSnap "B" 2)]))
    = Emit (ChildAdded "C" (JSnap (mkSnap "C" 3)) (Some "A")) :: rest.
Proof.
  destruct (child_added_reports_sibling
              [Add "A" None; Add "B" (Some "A"); Add "C" (Some "A");
               ValueUpdated "A" (mkSnap "A" 1); ValueUpdated "B" (mkSnap "B" 2)]
              "C" (mkSnap "C" 3) (mkLoading (Child "C") (Some "A")))
    as [rest Hrest].
  - vm_compute. reflexivity.
  - vm_compute. reflexivity.
  - exists rest. etrans; [apply Hrest|]. f_equal.
Defined.

(** X15: in such a session [move] of an active key emits [child_moved]
    with, as previous key, [afterKey] if it is another key of [recIds],
    the last of the other keys if it is not in [recIds] (or is the moved
    key itself), and null if [afterKey] is null. *)
Theorem child_moved_reports_sibling
    (ops : list op) (key : string) (afterKey : option string) :
  along fresh_add ops RecordList.empty = true →
  let s := session ops in
  let others := util.remove (recIds s) key in
  util.has (recs s) key = true →
  ∃ rest,
    trace (move key afterKey s)
    = Emit (ChildMoved key (snap_of s key)
              match afterKey with
              | None => None
              | Some p => if bool_decide (p ∈ others) then Some p else last others
              end) :: rest.
Proof.
  intros Hfresh s others Hk.
  destruct (session_tidy ops Hfresh) as [Hids Hact _ _ _ _].
  fold s in Hids, Hact.
  rewrite move_eq, Hk. cbv zeta. cbn [trace].
  match goal with |- context [snap_of ?s' key] =>
    change (snap_of s' key) with (snap_of s key);
    change (recIds s')
      with (put_after key afterKey
              (splice (recIds s) (util.indexOf (recIds s) key) 1 []))
  end.
  rewrite splice_out_found by by apply Hact.
  rewrite prev_child_put_after; [by eexists|].
  rewrite elem_of_remove_nodup by done. by intros [? _].
Qed.

Lemma child_moved_reports_sibling_witness :
  ∃ rest,
    trace (move "A" (Some "C") (session loaded_ABC))
    = Emit (ChildMoved "A" (JSnap (mkSnap "A" 1)) (Some "C")) :: rest.
Proof.
  destruct (child_moved_reports_sibling loaded_ABC "A" (Some "C"))
    as [rest Hrest].
  - vm_compute. reflexivity.
  - vm_compute. reflexivity.
  - exists rest. etrans; [apply Hrest|]. f_equal.
Defined.

(** ** Starting and stopping *)

Section Manager.
Import RecordSetEventManager.
Implicit Types (e : RecordSetEventManager.t).

Lemma stop_running e :
  running e = true →
  stop e
  = mkResult (Normal tt) new
      ([MasterOff "child_added"; MasterOff "child_removed";
        MasterOff "child_moved"]
       ++ trace (RecordList.unloaded (recList e))).
Proof.
  intros Hon. unfold stop. step. rewrite preceded_nil, Hon.
  do 4 step. unfold on_recList, RecordList.unloaded.
  rewrite !reset_eq. reflexivity.
Qed.

Lemma unloaded_effects (s : RecordList.t) :
  Forall (λ ef, match ef with
                | Unwatch _ _ | Emit (ChildRemoved _ _) | Emit (Value _) => True
                | _ => False
                end) (trace (RecordList.unloaded s)).
Proof.
  unfold RecordList.unloaded. rewrite reset_eq. cbn.
  apply (each_rec_remove (λ _, True)); [|done].
  intros k s0 _. split; [done|]. rewrite remove_eq.
  destruct (JsObject.get (recs s0) k); cbn; [|done].
  repeat (constructor; [done|]).
  unfold value_trace. destruct (loadComplete _); by repeat constructor.
Qed.
End Manager.

(** X16: [start] on a running manager and [stop] on a stopped one change
    nothing and subscribe or unsubscribe nothing, so each is idempotent;
    [stop] on a running manager takes the three [child_*] listeners off
    the master reference, resets the record list and leaves the manager
    as new; it never takes off the [value] listener that [start] put on
    with [once]. *)
Theorem start_and_stop_are_idempotent (e : RecordSetEventManager.t) :
  RecordSetEventManager.start (after (RecordSetEventManager.start e))
  = mkResult (Normal tt) (after (RecordSetEventManager.start e)) []
  ∧ RecordSetEventManager.stop (after (RecordSetEventManager.stop e))
    = mkResult (Normal tt) (after (RecordSetEventManager.stop e)) []
  ∧ (RecordSetEventManager.running e = true →
     after (RecordSetEventManager.stop e) = RecordSetEventManager.new
     ∧ take 3 (trace (RecordSetEventManager.stop e))
       = [MasterOff "child_added"; MasterOff "child_removed";
          MasterOff "child_moved"])
  ∧ MasterOff "value" ∉ trace (RecordSetEventManager.stop e).
Proof.
  destruct (RecordSetEventManager.running e) eqn:Hon.
  - split_and!.
    + destruct e as [l b]. cbn in Hon. by subst b.
    + by rewrite (stop_running e).
    + intros _. by rewrite (stop_running e).
    + rewrite (stop_running e) by done. cbn [trace].
      intros [H|H]%elem_of_app.
      * repeat (apply elem_of_cons in H as [H|H]; [discriminate H|]).
        by apply elem_of_nil in H.
      * pose proof (unloaded_effects (RecordSetEventManager.recList e)) as Hall.
        rewrite Forall_forall in Hall. by apply Hall in H.
  - assert (RecordSetEventManager.stop e = mkResult (Normal tt) e []) as Hstop.
    { unfold RecordSetEventManager.stop. step. by rewrite preceded_nil, Hon. }
    split_and!.
    + destruct e as [l b]. cbn in Hon. by subst b.
    + by rewrite Hstop.
    + done.
    + rewrite Hstop. apply not_elem_of_nil.
Qed.

Lemma start_and_stop_are_idempotent_witness :
  after (RecordSetEventManager.stop
           (after (RecordSetEventManager.start RecordSetEventManager.new)))
  = RecordSetEventManager.new.
Proof.
  destruct (start_and_stop_are_idempotent
              (after (RecordSetEventManager.start RecordSetEventManager.new)))
    as (_ & _ & Hstop & _).
  apply Hstop. reflexivity.
Defined.

(** ** The payload of the aggregate [value], at every firing *)

Section Moments.
Implicit Types (s st : RecordList.t) (key k : string) (o : op) (ops : list op).













End Moments.


